(** * tinykeys: keybinding parser, press matcher and sequence tracker

    A shallow embedding of [src/tinykeys.ts].

    Strings.  A JavaScript string is a sequence of UTF-16 code units; here
    a string is a [string] of the Standard Library, and the model is exact
    for code units below 128 (the alphabet of key names, modifier names
    and binding strings).  On that alphabet [toUpperCase] maps [a-z] to
    [A-Z], white space is U+0009..U+000D and U+0020, and the word
    characters of a regular expression are [A-Za-z0-9_].

    Effects.  The handler mutates the map [possibleMatches] and the
    variable [timer] of its closure, schedules and cancels timeouts of the
    host, and calls the callbacks of the user.  The model threads one
    state through a small state-and-exception monad; a callback is known
    by what it does on an event (it returns, or throws a value), and every
    call is recorded. *)

From Stdlib Require Import Ascii String List Bool NArith Lia.
From stdpp Require Import base tactics option list strings gmap.

Open Scope string_scope.
Open Scope list_scope.

(** * Built-in functions of strings and arrays *)

Module JsString.

Definition isWhiteSpace (c : ascii) : bool :=
  let n := nat_of_ascii c in
  ((9 <=? n)%nat && (n <=? 13)%nat) || (n =? 32)%nat.

(** The class [\w] of a regular expression without the [u] and [i] flags. *)
Definition isWordChar (c : ascii) : bool :=
  let n := nat_of_ascii c in
  ((48 <=? n)%nat && (n <=? 57)%nat)
  || ((65 <=? n)%nat && (n <=? 90)%nat)
  || ((97 <=? n)%nat && (n <=? 122)%nat)
  || (n =? 95)%nat.

Definition upperChar (c : ascii) : ascii :=
  let n := nat_of_ascii c in
  if ((97 <=? n)%nat && (n <=? 122)%nat) then ascii_of_nat (n - 32) else c.

(** [String.prototype.toUpperCase]. *)
Fixpoint toUpperCase (s : string) : string :=
  match s with
  | EmptyString => EmptyString
  | String c r => String (upperChar c) (toUpperCase r)
  end.

Fixpoint trimStart (s : string) : string :=
  match s with
  | EmptyString => EmptyString
  | String c r => if isWhiteSpace c then trimStart r else s
  end.

Fixpoint trimEnd (s : string) : string :=
  match s with
  | EmptyString => EmptyString
  | String c r =>
      match trimEnd r with
      | EmptyString => if isWhiteSpace c then EmptyString else String c EmptyString
      | r' => String c r'
      end
  end.

(** [String.prototype.trim]: white space is removed at both ends. *)
Definition trim (s : string) : string := trimEnd (trimStart s).

(** Puts a code unit in front of the piece being read. *)
Definition extend (c : ascii) (segs : list string) : list string :=
  match segs with
  | [] => [String c EmptyString]
  | seg :: more => String c seg :: more
  end.

(** [s.split(" ")]: the pieces between every two occurrences of a space,
    empty pieces included; the result always has at least one piece. *)
Fixpoint splitSpace (s : string) : list string :=
  match s with
  | EmptyString => [EmptyString]
  | String c r =>
      if Ascii.eqb c " " then EmptyString :: splitSpace r
      else extend c (splitSpace r)
  end.

(** The assertion [\b] between the code unit [prev] before a position
    (absent at the start of the string) and the code unit [cur] at it:
    exactly one of the two is a word character. *)
Definition wordBoundary (prev : option ascii) (cur : ascii) : bool :=
  xorb (from_option isWordChar false prev) (isWordChar cur).

(** [s.split(/\b\+/)], reading [s] after the code unit [prev].  The
    pattern matches a [+] that stands at a word boundary; a match is one
    code unit long, so the pieces are the text between the matches, and
    the assertion looks at the whole string, also across earlier matches. *)
Fixpoint splitWordPlus (prev : option ascii) (s : string) : list string :=
  match s with
  | EmptyString => [EmptyString]
  | String c r =>
      if wordBoundary prev c && Ascii.eqb c "+"
      then EmptyString :: splitWordPlus (Some c) r
      else extend c (splitWordPlus (Some c) r)
  end.

(** [Array.prototype.pop]: the array without its last element, and that
    element ([None] stands for [undefined], on an empty array). *)
Definition pop {A} (l : list A) : list A * option A := (removelast l, last l).

(** [RegExp.prototype.test] for a literal: it occurs somewhere in [s]. *)
Fixpoint includes (needle s : string) : bool :=
  String.prefix needle s ||
  match s with
  | EmptyString => false
  | String _ r => includes needle r
  end.

End JsString.
Import JsString.

(** * The program *)

Module Tinykeys.

(** ** Module constants *)

Definition KeyBindingPress : Type := list string * string.

Definition KEYBINDING_MODIFIER_KEYS : list string :=
  ["Shift"; "Meta"; "Alt"; "Control"].

Definition DEFAULT_TIMEOUT : N := 1000.

Definition DEFAULT_EVENT : string := "keydown".

(** The global [navigator]; there is none outside a browser. *)
Record Navigator := { platform : string }.

(** [/Mac|iPod|iPhone|iPad/.test(navigator.platform)]. *)
Definition isApple (n : Navigator) : bool :=
  existsb (fun lit => includes lit (platform n)) ["Mac"; "iPod"; "iPhone"; "iPad"].

Definition MOD (navigator : option Navigator) : string :=
  match navigator with
  | Some n => if isApple n then "Meta" else "Control"
  | None => "Control"
  end.

(** ** The grammar parser *)

Section Parser.
Variable navigator : option Navigator.

(** The callback of [mods.map]: the alias stands for the platform's
    modifier. *)
Definition resolveAlias (m : string) : string :=
  if String.eqb m "$mod" then MOD navigator else m.

(** The callback of [.map] in [parseKeybinding], on one token.  The split
    never returns an empty array (lemma [splitWordPlus_nonempty]), so
    [mods.pop()] is a string. *)
Definition parsePress (press : string) : KeyBindingPress :=
  let '(mods, key) := pop (splitWordPlus None press) in
  let mods := map resolveAlias mods in
  (mods, default "undefined" key).

Definition parseKeybinding (str : string) : list KeyBindingPress :=
  map parsePress (splitSpace (trim str)).

End Parser.

(** ** Events and the modifier resolver *)

(** The fields of a DOM [KeyboardEvent] the source reads.  The method
    [getModifierState] is absent on some events (a Chrome bug the source
    works around). *)
Record KeyboardEvent := {
  key : string;
  code : string;
  repeat : bool;
  getModifierStateMethod : option (string -> bool)
}.

(** What a listener receives: a keyboard event, or an event of another
    class ([event instanceof KeyboardEvent] is false). *)
Inductive Event :=
| KeyboardEv (e : KeyboardEvent)
| OtherEvent.

Definition getModifierState (event : KeyboardEvent) (m : string) : bool :=
  match getModifierStateMethod event with
  | Some method => method m
  | None => false
  end.

(** ** The press matcher *)

(** [Array.prototype.includes] on strings. *)
Definition arrayIncludes (l : list string) (s : string) : bool :=
  existsb (String.eqb s) l.

(** The truth value of the result of [Array.prototype.find] on strings:
    [undefined] and the empty string are falsy. *)
Definition truthy (found : option string) : bool :=
  match found with
  | Some s => negb (String.eqb s "")
  | None => false
  end.

Definition match_ (event : KeyboardEvent) (press : KeyBindingPress) : bool :=
  negb (
    (negb (String.eqb (toUpperCase (snd press)) (toUpperCase (key event)))
     && negb (String.eqb (snd press) (code event)))
    || truthy (List.find (fun m => negb (getModifierState event m)) (fst press))
    || truthy (List.find (fun m => negb (arrayIncludes (fst press) m)
                                   && negb (String.eqb (snd press) m)
                                   && getModifierState event m)
                 KEYBINDING_MODIFIER_KEYS)).

(** ** The handler's state and effects *)

(** A callback is user code: on an event it returns, or throws a value. *)
Definition Callback : Type := KeyboardEvent -> option string.

(** The binding map as [Object.keys] enumerates it. *)
Definition KeyBindingMap : Type := list (string * Callback).

Record KeyBindingHandlerOptions := {
  timeout : option N;
  allowRepeat : option bool
}.

(** A call [callback(event)] made by the handler, recorded with the index
    in [keyBindings] of the binding that owns the callback. *)
Definition Call : Type := nat * KeyboardEvent.

(** The variables the handler closes over, and the part of the host it
    acts on.  [possibleMatches] is keyed by the identity of a binding's
    sequence array, which is the binding's index in [keyBindings] (every
    call of [parseKeybinding] returns a new array).  [pending] lists the
    timeouts the host has scheduled and not yet run or cancelled, each
    with the time it is due; [setTimeout] returns [nextTimer], and
    identifiers are positive and never reused. *)
Record State := {
  possibleMatches : gmap nat (list KeyBindingPress);
  timer : option nat;
  pending : list (nat * N);
  nextTimer : nat;
  now : N;
  calls : list Call
}.

Definition initial : State :=
  {| possibleMatches := ∅; timer := None; pending := []; nextTimer := 1;
     now := 0; calls := [] |}.

Inductive Completion (A : Type) :=
| Normal (a : A)
| Throw (v : string).
Arguments Normal {A} a.
Arguments Throw {A} v.

(** Computations that change the state and may throw; what was written
    before a throw stays written. *)
Definition M (A : Type) : Type := State -> Completion A * State.

#[global] Instance M_ret : MRet M := fun A a st => (Normal a, st).

#[global] Instance M_bind : MBind M := fun A B k c st =>
  match c st with
  | (Normal a, st') => k a st'
  | (Throw v, st') => (Throw v, st')
  end.

Definition throw {A} (v : string) : M A := fun st => (Throw v, st).

Definition mapGet (i : nat) : M (option (list KeyBindingPress)) :=
  fun st => (Normal (possibleMatches st !! i), st).

Definition setMatches (m : gmap nat (list KeyBindingPress)) (st : State) : State :=
  {| possibleMatches := m; timer := timer st; pending := pending st;
     nextTimer := nextTimer st; now := now st; calls := calls st |}.

Definition mapSet (i : nat) (v : list KeyBindingPress) : M unit :=
  fun st => (Normal tt, setMatches (<[i := v]> (possibleMatches st)) st).

Definition mapDelete (i : nat) : M unit :=
  fun st => (Normal tt, setMatches (delete i (possibleMatches st)) st).

(** [callback(event)] for the binding at index [i]. *)
Definition call (i : nat) (callback : Callback) (event : KeyboardEvent) : M unit :=
  fun st =>
    let st' := {| possibleMatches := possibleMatches st; timer := timer st;
                  pending := pending st; nextTimer := nextTimer st;
                  now := now st; calls := calls st ++ [(i, event)] |} in
    match callback event with
    | None => (Normal tt, st')
    | Some v => (Throw v, st')
    end.

Definition getTimer : M (option nat) := fun st => (Normal (timer st), st).

Definition clearTimeout (id : nat) : M unit :=
  fun st =>
    (Normal tt,
     {| possibleMatches := possibleMatches st; timer := timer st;
        pending := List.filter (fun p => negb (Nat.eqb (fst p) id)) (pending st);
        nextTimer := nextTimer st; now := now st; calls := calls st |}).

(** [setTimeout(possibleMatches.clear.bind(possibleMatches), delay)]: the
    only function ever scheduled is the one that clears the table.  The
    delay is taken as it is, which is what the host does with a delay
    below 2^31 milliseconds (it takes the delay as a signed 32-bit number
    and runs a timeout with a larger delay at once); what is stated about
    the time a timeout is due is stated for such delays. *)
Definition setTimeout (delay : N) : M nat :=
  fun st =>
    (Normal (nextTimer st),
     {| possibleMatches := possibleMatches st; timer := timer st;
        pending := pending st ++ [(nextTimer st, (now st + delay)%N)];
        nextTimer := S (nextTimer st); now := now st; calls := calls st |}).

Definition setTimer (id : nat) : M unit :=
  fun st =>
    (Normal tt,
     {| possibleMatches := possibleMatches st; timer := Some id;
        pending := pending st; nextTimer := nextTimer st;
        now := now st; calls := calls st |}).

(** [Array.prototype.forEach]; the callback receives the index too. *)
Fixpoint forEach {A} (f : nat -> A -> M unit) (i : nat) (l : list A) : M unit :=
  match l with
  | [] => mret tt
  | x :: rest => f i x;; forEach f (S i) rest
  end.

(** ** The handler *)

Section Handler.
Variable navigator : option Navigator.
Variable keyBindingMap : KeyBindingMap.
Variable options : KeyBindingHandlerOptions.

Definition timeoutOf : N := default DEFAULT_TIMEOUT (timeout options).

Definition keyBindings : list (list KeyBindingPress * Callback) :=
  map (fun kv => (parseKeybinding navigator (fst kv), snd kv)) keyBindingMap.

(** The body of [keyBindings.forEach] for the binding at index [i]. *)
Definition trackBinding (event : KeyboardEvent) (i : nat)
    (keyBinding : list KeyBindingPress * Callback) : M unit :=
  let sequence := fst keyBinding in
  let callback := snd keyBinding in
  prev ← mapGet i;
  let remainingExpectedPresses := default sequence prev in
  match remainingExpectedPresses with
  | [] => throw "TypeError" (* reading [press[1]] of [undefined] *)
  | currentExpectedPress :: _ =>
      let matches := match_ event currentExpectedPress in
      if negb matches then
        if negb (getModifierState event (key event)) then mapDelete i else mret tt
      else if (1 <? length remainingExpectedPresses)%nat then
        mapSet i (drop 1 remainingExpectedPresses)
      else
        mapDelete i;; call i callback event
  end.

(** The listener [createKeybindingsHandler] returns. *)
Definition handler (event : Event) : M unit :=
  match event with
  | OtherEvent => mret tt
  | KeyboardEv e =>
      if negb (default false (allowRepeat options)) && repeat e then mret tt
      else
        forEach (trackBinding e) 0 keyBindings;;
        t ← getTimer;
        match t with
        | Some (S _ as id) => clearTimeout id
        | _ => mret tt
        end;;
        id ← setTimeout timeoutOf;
        setTimer id
  end.

(** ** The host: time passing and timeouts running *)

(** [dt] milliseconds pass with no event: every timeout that has come due
    runs, and each clears the whole table. *)
Definition elapse (dt : N) (st : State) : State :=
  let t := (now st + dt)%N in
  let due := List.filter (fun p => (snd p <=? t)%N) (pending st) in
  {| possibleMatches := match due with [] => possibleMatches st | _ => ∅ end;
     timer := timer st;
     pending := List.filter (fun p => negb (snd p <=? t)%N) (pending st);
     nextTimer := nextTimer st;
     now := t;
     calls := calls st |}.

Inductive Step :=
| Dispatch (event : Event)
| Elapse (dt : N).

Definition step (s : Step) (st : State) : State :=
  match s with
  | Dispatch event => snd (handler event st)
  | Elapse dt => elapse dt st
  end.

Definition run (steps : list Step) (st : State) : State :=
  fold_left (fun st s => step s st) steps st.

(** The states of a handler during its life. *)
Inductive reachable : State -> Prop :=
| reachable_initial : reachable initial
| reachable_step st s : reachable st -> reachable (step s st).

End Handler.

(** ** Subscribing on an event target *)

Record KeyBindingOptions := {
  handlerOptions : KeyBindingHandlerOptions;
  event : option string
}.

(** A listener registered on the target: the handler of this module, or
    a function of other code, known by an identifier. *)
Inductive Listener :=
| onKeyEvent
| foreign (id : nat).

Definition sameListener (a b : Listener) : bool :=
  match a, b with
  | onKeyEvent, onKeyEvent => true
  | foreign i, foreign j => Nat.eqb i j
  | _, _ => false
  end.

Definition sameEntry (a b : string * Listener) : bool :=
  String.eqb (fst a) (fst b) && sameListener (snd a) (snd b).

(** The target with its listeners, in the order they were added, and the
    state the handler works on. *)
Record Page := {
  listeners : list (string * Listener);
  inner : State
}.

(** [target.addEventListener(type, l)]: a listener already registered
    for the type is not added twice. *)
Definition addEventListener (type : string) (l : Listener) (p : Page) : Page :=
  {| listeners := if existsb (sameEntry (type, l)) (listeners p) then listeners p
                  else listeners p ++ [(type, l)];
     inner := inner p |}.

(** [target.removeEventListener(type, l)]: nothing happens when the
    listener is not registered. *)
Definition removeEventListener (type : string) (l : Listener) (p : Page) : Page :=
  {| listeners := List.filter (fun x => negb (sameEntry (type, l) x)) (listeners p);
     inner := inner p |}.

Section Subscribe.
Variable navigator : option Navigator.
Variable keyBindingMap : KeyBindingMap.
Variable options : KeyBindingOptions.

Definition eventOf : string := default DEFAULT_EVENT (event options).

(** The function [tinykeys] returns. *)
Definition unsubscribe (p : Page) : Page :=
  removeEventListener eventOf onKeyEvent p.

(** [tinykeys(target, keyBindingMap, options)] on a target that has the
    listeners [target] of other code: the page with the new handler
    registered, and the function that unsubscribes it. *)
Definition tinykeys (target : list (string * nat)) : Page * (Page -> Page) :=
  let p := {| listeners := map (fun l => (fst l, foreign (snd l))) target;
              inner := initial |} in
  (addEventListener eventOf onKeyEvent p, unsubscribe).

(** The target delivers an event of type [type] to the listeners
    registered for it.  What a listener throws is reported by the host and
    does not stop the delivery; listeners of other code do not touch the
    handler's state. *)
Definition dispatchEvent (type : string) (e : Event) (p : Page) : Page :=
  fold_left
    (fun q l =>
       if String.eqb (fst l) type then
         match snd l with
         | onKeyEvent =>
             {| listeners := listeners q;
                inner := snd (handler navigator keyBindingMap (handlerOptions options) e (inner q)) |}
         | foreign _ => q
         end
       else q)
    (listeners p) p.

Inductive PageStep :=
| Deliver (type : string) (e : Event)
| Wait (dt : N)
| Unsubscribe.

Definition pageStep (s : PageStep) (p : Page) : Page :=
  match s with
  | Deliver type e => dispatchEvent type e p
  | Wait dt => {| listeners := listeners p; inner := elapse dt (inner p) |}
  | Unsubscribe => unsubscribe p
  end.

Definition pageRun (steps : list PageStep) (p : Page) : Page :=
  fold_left (fun q s => pageStep s q) steps p.

End Subscribe.

End Tinykeys.
Import Tinykeys.

(** * The vocabulary of the specification *)

Module Spec.

(** ** Pieces of a string *)

(** [Array.prototype.join]. *)
Fixpoint joinWith (sep : string) (l : list string) : string :=
  match l with
  | [] => ""
  | [x] => x
  | x :: rest => x ++ sep ++ joinWith sep rest
  end.

Fixpoint hasChar (c : ascii) (s : string) : bool :=
  match s with
  | EmptyString => false
  | String d r => Ascii.eqb d c || hasChar c r
  end.

Fixpoint lastChar (s : string) : option ascii :=
  match s with
  | EmptyString => None
  | String c EmptyString => Some c
  | String _ r => lastChar r
  end.

(** A piece ends in a word character, so that a [+] after it stands at a
    word boundary. *)
Definition endsInWord (s : string) : bool :=
  from_option isWordChar false (lastChar s).

(** Some [+] of [s], read after [prev], stands at a word boundary. *)
Fixpoint hasSeparator (prev : option ascii) (s : string) : bool :=
  match s with
  | EmptyString => false
  | String c r => (wordBoundary prev c && Ascii.eqb c "+") || hasSeparator (Some c) r
  end.

Fixpoint allWhiteSpace (s : string) : bool :=
  match s with
  | EmptyString => true
  | String c r => isWhiteSpace c && allWhiteSpace r
  end.

Definition firstChar (s : string) : option ascii :=
  match s with
  | EmptyString => None
  | String c _ => Some c
  end.



(** ** The conditions of the press matcher *)

(** The three conditions of the matcher. *)
Definition keyAgrees (e : KeyboardEvent) (press : KeyBindingPress) : Prop :=
  toUpperCase (snd press) = toUpperCase (key e) \/ snd press = code e.

Definition modifiersHeld (e : KeyboardEvent) (press : KeyBindingPress) : Prop :=
  forall m, In m (fst press) -> getModifierState e m = true.

Definition noExtraModifier (e : KeyboardEvent) (press : KeyBindingPress) : Prop :=
  forall m, In m KEYBINDING_MODIFIER_KEYS -> getModifierState e m = true ->
            In m (fst press) \/ m = snd press.

(** The modifiers an event presents, against those of a press. *)
Definition presentsExactly (e : KeyboardEvent) (press : KeyBindingPress) : Prop :=
  forall m, getModifierState e m = true <-> In m (fst press).

Definition presentsStrictSuperset (e : KeyboardEvent) (press : KeyBindingPress) : Prop :=
  modifiersHeld e press
  /\ exists m, getModifierState e m = true /\ ~ In m (fst press).

Definition presentsStrictSubset (e : KeyboardEvent) (press : KeyBindingPress) : Prop :=
  (forall m, getModifierState e m = true -> In m (fst press))
  /\ exists m, In m (fst press) /\ getModifierState e m = false.

(** ** The sequence tracker as the specification words it *)

(** The press a binding waits for: the first of the stored entry or, when
    there is none, of the full sequence. *)
Definition remaining (sequence : list KeyBindingPress)
    (entry : option (list KeyBindingPress)) : list KeyBindingPress :=
  match entry with
  | Some r => r
  | None => sequence
  end.

(** The binding's callback runs: the event matches the last remaining press. *)
Definition completes (e : KeyboardEvent) (sequence : list KeyBindingPress)
    (entry : option (list KeyBindingPress)) : bool :=
  match remaining sequence entry with
  | [p] => match_ e p
  | _ => false
  end.

(** The binding's entry after the event. *)
Definition progress (e : KeyboardEvent) (sequence : list KeyBindingPress)
    (entry : option (list KeyBindingPress)) : option (list KeyBindingPress) :=
  match remaining sequence entry with
  | [] => entry
  | p :: rest =>
      if match_ e p then
        match rest with
        | [] => None
        | _ :: _ => Some rest
        end
      else if getModifierState e (key e) then entry
      else None
  end.

(** The calls of one event, in the order of the bindings, from index [i]. *)
Fixpoint completed (e : KeyboardEvent) (table : gmap nat (list KeyBindingPress))
    (i : nat) (bindings : list (list KeyBindingPress * Callback)) : list Call :=
  match bindings with
  | [] => []
  | b :: rest =>
      (if completes e (fst b) (table !! i) then [(i, e)] else [])
      ++ completed e table (S i) rest
  end.

(** ** States of the handler *)

(** What one binding does to the state, whatever the outcome. *)
Record trackEffect (e : KeyboardEvent) (i : nat) (st st' : State) (new : list Call) : Prop := {
  te_others : forall j, j <> i -> possibleMatches st' !! j = possibleMatches st !! j;
  te_calls : calls st' = calls st ++ new;
  te_timer : timer st' = timer st;
  te_pending : pending st' = pending st;
  te_nextTimer : nextTimer st' = nextTimer st;
  te_now : now st' = now st
}.

(** At most one timeout is scheduled, it is the one [timer] names, and
    its identifier is not one [setTimeout] will return again. *)
Definition timersOk (st : State) : Prop :=
  0 < nextTimer st
  /\ (pending st = []
      \/ exists id due,
           timer st = Some id /\ 0 < id < nextTimer st /\ pending st = [(id, due)]).

Definition withRepeat (b : bool) (e : KeyboardEvent) : KeyboardEvent :=
  {| key := key e; code := code e; repeat := b;
     getModifierStateMethod := getModifierStateMethod e |}.

(** Two states that differ at most in the events recorded with the calls. *)
Definition sameButEvents (st1 st2 : State) : Prop :=
  possibleMatches st1 = possibleMatches st2
  /\ timer st1 = timer st2
  /\ pending st1 = pending st2
  /\ nextTimer st1 = nextTimer st2
  /\ now st1 = now st2
  /\ map fst (calls st1) = map fst (calls st2).

(** Two events the handler cannot tell apart once it processes them. *)
Definition sameKeystroke (e1 e2 : KeyboardEvent) : Prop :=
  key e1 = key e2 /\ code e1 = code e2
  /\ getModifierStateMethod e1 = getModifierStateMethod e2.

Section Tracking.
Variable navigator : option Navigator.
Variable keyBindingMap : KeyBindingMap.
Variable options : KeyBindingHandlerOptions.

(** An entry of the table is a part of its binding's sequence that is
    still to come: not empty, and not the whole sequence. *)
Definition entryOk (i : nat) (rem : list KeyBindingPress) : Prop :=
  exists kb pre,
    keyBindings navigator keyBindingMap !! i = Some kb /\ pre <> [] /\ rem <> [] /\ fst kb = pre ++ rem.

Definition tableOk (table : gmap nat (list KeyBindingPress)) : Prop :=
  forall i rem, table !! i = Some rem -> entryOk i rem.

(** The event is a repeat that the options do not admit. *)
Definition suppressed (e : KeyboardEvent) : bool :=
  negb (default false (allowRepeat options)) && repeat e.

(** The state after the last three statements of the handler. *)
Definition rearm (st : State) : State :=
  {| possibleMatches := possibleMatches st;
     timer := Some (nextTimer st);
     pending :=
       match timer st with
       | Some (S _ as id) => List.filter (fun p => negb (Nat.eqb (fst p) id)) (pending st)
       | _ => pending st
       end ++ [(nextTimer st, (now st + timeoutOf options)%N)];
     nextTimer := S (nextTimer st);
     now := now st;
     calls := calls st |}.

End Tracking.

(** ** Pages of a subscription *)

Section Subscribed.
Variable navigator : option Navigator.
Variable keyBindingMap : KeyBindingMap.
Variable options : KeyBindingOptions.

(** The pages a subscription goes through. *)
Inductive subscribed (target : list (string * nat)) : Page -> Prop :=
| subscribed_start : subscribed target (fst (tinykeys options target))
| subscribed_step p s :
    subscribed target p ->
    subscribed target (pageStep navigator keyBindingMap options s p).

(** The handler is registered for the subscription's event type only. *)
Definition registeredOnce (p : Page) : Prop :=
  forall type, In (type, onKeyEvent) (listeners p) -> type = eventOf options.

(** The handler is not registered. *)
Definition unregistered (p : Page) : Prop :=
  forall type, ~ In (type, onKeyEvent) (listeners p).

End Subscribed.

End Spec.
Import Spec.

(** * Concrete bindings and events *)

(** The event of the key [k] with physical code [c], not a repeat, on
    which exactly the modifiers [held] are active. *)
Definition keydown (k c : string) (held : list string) : KeyboardEvent :=
  {| key := k; code := c; repeat := false;
     getModifierStateMethod := Some (arrayIncludes held) |}.

(** The keydown of a letter key with no modifier held. *)
Definition stroke (k : string) : KeyboardEvent :=
  keydown k ("Key" ++ toUpperCase k) [].

(** The press of a key without modifiers. *)
Definition bare (k : string) : KeyBindingPress := ([], k).

Definition shiftD : KeyBindingPress := (["Shift"], "d").

Definition returns : Callback := fun _ => None.
Definition throws : Callback := fun _ => Some "boom".

Definition defaults : KeyBindingHandlerOptions :=
  {| timeout := None; allowRepeat := None |}.

Definition repeats : KeyBindingHandlerOptions :=
  {| timeout := None; allowRepeat := Some true |}.

Definition yeet : KeyBindingMap := [("y e e t", returns); ("y", returns)].

(** A binding whose callback throws, registered before a sequence that
    starts with the same key. *)
Definition throwsFirst : KeyBindingMap := [("a", throws); ("a b", returns)].

(** The same two bindings, the sequence first. *)
Definition throwsLast : KeyBindingMap := [("a b", returns); ("a", throws)].

(** A callback that throws on a repeat and returns on the first keydown. *)
Definition throwsOnRepeat : Callback :=
  fun e => if repeat e then Some "boom" else None.

(** The binding [a] with that callback, registered before [a b]. *)
Definition repeatSensitive : KeyBindingMap :=
  [("a", throwsOnRepeat); ("a b", returns)].

Definition yeetOnly : KeyBindingMap := [("y e e t", returns)].

(** Two bindings that the same keystroke completes. *)
Definition twice : KeyBindingMap := [("a", returns); ("A", returns)].

Definition keydownOptions : KeyBindingOptions :=
  {| handlerOptions := defaults; event := None |}.

Definition ab : KeyBindingMap := [("a b", returns)].

(** The page after subscribing [ab] on a target without listeners and
    delivering the keydown of [a]. *)
Definition afterA : Page :=
  pageStep None ab keydownOptions (Deliver "keydown" (KeyboardEv (stroke "a")))
    (fst (tinykeys keydownOptions [])).

(** * The vocabulary of the further properties *)

(** The platform names an Apple device: one of the literals the module
    looks for occurs in it. *)
Definition applePlatform (navigator : option Navigator) : Prop :=
  exists n lit before after,
    navigator = Some n
    /\ In lit ["Mac"; "iPod"; "iPhone"; "iPad"]
    /\ platform n = (before ++ lit ++ after)%string.

(** The calls made for the binding at index [i]. *)
Definition callsOf (i : nat) (cs : list Call) : list Call :=
  List.filter (fun c => Nat.eqb (fst c) i) cs.

(** Keys typed one after another: before each keydown, the time that
    passes since the step before it. *)
Definition typing (keys : list (N * KeyboardEvent)) : list Step :=
  flat_map (fun k => [Elapse (fst k); Dispatch (KeyboardEv (snd k))]) keys.

(** Every timeout that is pending is due no later than [timeout]
    milliseconds from now. *)
Definition dueSoon (options : KeyBindingHandlerOptions) (st : State) : Prop :=
  forall id due, In (id, due) (pending st) ->
    (now st <= due <= now st + timeoutOf options)%N.

(** No callback of the map ever throws. *)
Definition neverThrows (keyBindingMap : KeyBindingMap) : Prop :=
  forall text callback (e : KeyboardEvent),
    In (text, callback) keyBindingMap -> callback e = None.

(** The key F1 as browsers that leave out [getModifierState] deliver it. *)
Definition f1 : KeyboardEvent :=
  {| key := "F1"; code := "F1"; repeat := false; getModifierStateMethod := None |}.

(** * Properties *)

(** ** Splitting and the parser *)

Lemma extend_join sep c segs :
  segs <> [] -> joinWith sep (extend c segs) = String c (joinWith sep segs).
Proof.
  destruct segs as [|seg [|seg' more]]; [congruence | reflexivity | reflexivity].
Qed.

Lemma extend_nonempty c segs : extend c segs <> [].
Proof. destruct segs; discriminate. Qed.

Lemma splitSpace_nonempty s : splitSpace s <> [].
Proof.
  destruct s as [|c r]; simpl; [discriminate|].
  destruct (Ascii.eqb c " "); [discriminate | apply extend_nonempty].
Qed.


Lemma splitSpace_no_space s :
  Forall (fun t => hasChar " " t = false) (splitSpace s).
Proof.
  induction s as [|c r IH]; simpl; [repeat constructor|].
  destruct (Ascii.eqb_spec c " ") as [->|Hc].
  - constructor; [reflexivity | exact IH].
  - destruct (splitSpace r) as [|t more]; simpl.
    + repeat constructor. simpl. destruct (Ascii.eqb_spec c " "); [contradiction|reflexivity].
    + inversion IH; subst. constructor; [|assumption].
      simpl. destruct (Ascii.eqb_spec c " "); [contradiction|assumption].
Qed.

Lemma splitWordPlus_nonempty prev s : splitWordPlus prev s <> [].
Proof.
  destruct s as [|c r]; simpl; [discriminate|].
  destruct (wordBoundary prev c && Ascii.eqb c "+"); [discriminate | apply extend_nonempty].
Qed.

Lemma splitWordPlus_join prev s : joinWith "+" (splitWordPlus prev s) = s.
Proof.
  revert prev. induction s as [|c r IH]; intros prev; simpl; [reflexivity|].
  destruct (wordBoundary prev c && Ascii.eqb c "+") eqn:Hsep.
  - apply andb_true_iff in Hsep as [_ Hc]. apply Ascii.eqb_eq in Hc as ->.
    pose proof (splitWordPlus_nonempty (Some "+"%char) r) as Hne.
    specialize (IH (Some "+"%char)).
    destruct (splitWordPlus (Some "+"%char) r) as [|t more]; [congruence|].
    simpl in *. now rewrite IH.
  - rewrite extend_join by apply splitWordPlus_nonempty. now rewrite IH.
Qed.

(** The pieces of a split, seen from the left: the first piece is read
    after [prev], the others after a [+]. *)
Lemma splitWordPlus_pieces prev s :
  match splitWordPlus prev s with
  | [] => False
  | first :: others =>
      hasSeparator prev first = false
      /\ Forall (fun seg => hasSeparator None seg = false) others
      /\ Forall (fun seg => endsInWord seg = true) (removelast others)
      /\ (others <> [] ->
          first = "" /\ from_option isWordChar false prev = true
          \/ endsInWord first = true)
  end.
Proof.
  revert prev. induction s as [|c r IH]; intros prev; simpl.
  - split; [reflexivity|]. split; [constructor|]. split; [constructor|].
    intros Hne. congruence.
  - specialize (IH (Some c)).
    destruct (wordBoundary prev c && Ascii.eqb c "+") eqn:Hsep.
    + apply andb_true_iff in Hsep as [Hb Hc]. apply Ascii.eqb_eq in Hc as ->.
      destruct (splitWordPlus (Some "+"%char) r) as [|first others]; [contradiction|].
      destruct IH as (Hf & Ho & Hw & Hfirst).
      assert (Hprev : from_option isWordChar false prev = true).
      { unfold wordBoundary in Hb. change (isWordChar "+") with false in Hb.
        now rewrite xorb_false_r in Hb. }
      repeat split.
      * constructor; [|exact Ho].
        destruct first as [|d first']; [reflexivity|].
        simpl in *. exact Hf.
      * destruct others as [|o others']; [constructor|].
        change (removelast (first :: o :: others')) with (first :: removelast (o :: others')).
        constructor; [|exact Hw].
        destruct Hfirst as [[_ Habs]|Hend]; [discriminate | discriminate | exact Hend].
      * intros _. left. split; [reflexivity | exact Hprev].
    + destruct (splitWordPlus (Some c) r) as [|first others]; [contradiction|].
      destruct IH as (Hf & Ho & Hw & Hfirst). simpl.
      repeat split; try assumption.
      * rewrite Hsep. exact Hf.
      * intros Hne. right. destruct (Hfirst Hne) as [[-> Hc]|Hend].
        -- exact Hc.
        -- unfold endsInWord in *. simpl. destruct first; [discriminate | exact Hend].
Qed.

Lemma split_last {A} (l : list A) :
  l <> [] -> exists x, last l = Some x /\ l = removelast l ++ [x].
Proof.
  induction l as [|a l IH]; [congruence|]. intros _.
  destruct l as [|b l'].
  - exists a. split; reflexivity.
  - destruct IH as (x & Hlast & Heq); [discriminate|].
    exists x. split; [exact Hlast|].
    change (removelast (a :: b :: l')) with (a :: removelast (b :: l')).
    rewrite <- app_comm_cons. f_equal. exact Heq.
Qed.

Lemma endsInWord_nonempty s : endsInWord s = true -> s <> "".
Proof. intros H ->. discriminate. Qed.

Lemma MOD_cases navigator : MOD navigator = "Meta" \/ MOD navigator = "Control".
Proof.
  unfold MOD. destruct navigator as [n|]; [|now right].
  destruct (isApple n); [now left | now right].
Qed.

Lemma MOD_not_alias navigator : MOD navigator <> "$mod".
Proof. destruct (MOD_cases navigator) as [-> | ->]; discriminate. Qed.

Lemma resolveAlias_nonempty navigator m : m <> "" -> resolveAlias navigator m <> "".
Proof.
  intros Hm. unfold resolveAlias. destruct (String.eqb m "$mod"); [|exact Hm].
  destruct (MOD_cases navigator) as [-> | ->]; discriminate.
Qed.

Lemma resolveAlias_not_alias navigator m : resolveAlias navigator m <> "$mod".
Proof.
  unfold resolveAlias. destruct (String.eqb_spec m "$mod") as [_|Hm]; [|exact Hm].
  apply MOD_not_alias.
Qed.

(** What [parsePress] makes of a token: the pieces of the token between
    the [+] signs that stand at a word boundary, the last one as the key
    and the ones before it, alias resolved, as the modifiers. *)
Lemma parsePress_pieces navigator tok :
  exists segs,
    joinWith "+" (segs ++ [snd (parsePress navigator tok)]) = tok
    /\ Forall (fun seg => endsInWord seg = true) segs
    /\ Forall (fun seg => hasSeparator None seg = false)
         (segs ++ [snd (parsePress navigator tok)])
    /\ fst (parsePress navigator tok) = map (resolveAlias navigator) segs.
Proof.
  pose proof (splitWordPlus_pieces None tok) as Hp.
  pose proof (splitWordPlus_join None tok) as Hj.
  unfold parsePress, pop.
  destruct (splitWordPlus None tok) as [|first others] eqn:Hs; [contradiction|].
  destruct Hp as (Hf & Ho & Hw & Hfirst).
  destruct (split_last (first :: others)) as (k & Hlast & Heq); [discriminate|].
  rewrite Hlast. simpl snd. simpl fst. simpl default.
  exists (removelast (first :: others)).
  rewrite <- Heq. split; [exact Hj|]. split; [|split; [|reflexivity]].
  - destruct others as [|o others']; [constructor|].
    change (removelast (first :: o :: others')) with (first :: removelast (o :: others')).
    constructor; [|exact Hw].
    destruct Hfirst as [[_ Habs]|Hend]; [discriminate | discriminate | exact Hend].
  - constructor; assumption.
Qed.

Lemma parsePress_modifiers_nonempty navigator tok :
  Forall (fun m => m <> "") (fst (parsePress navigator tok)).
Proof.
  destruct (parsePress_pieces navigator tok) as (segs & _ & Hw & _ & ->).
  induction Hw as [|seg segs Hseg _ IH]; simpl; constructor; [|exact IH].
  apply resolveAlias_nonempty, endsInWord_nonempty, Hseg.
Qed.

Lemma parseKeybinding_nonempty navigator str : parseKeybinding navigator str <> [].
Proof.
  unfold parseKeybinding. pose proof (splitSpace_nonempty (trim str)).
  destruct (splitSpace (trim str)); [congruence | discriminate].
Qed.

Lemma parsed_modifiers_nonempty navigator str press :
  In press (parseKeybinding navigator str) -> Forall (fun m => m <> "") (fst press).
Proof.
  unfold parseKeybinding. intros Hin. apply in_map_iff in Hin as (tok & <- & _).
  apply parsePress_modifiers_nonempty.
Qed.

(** *** What [trim] removes *)




(** *** The alias *)

Lemma splitWordPlus_app prev a b :
  endsInWord a = true ->
  splitWordPlus prev (a ++ String "+" b)%string
  = splitWordPlus prev a ++ splitWordPlus (Some "+"%char) b.
Proof.
  revert prev. induction a as [|c a' IH]; intros prev Hend; [discriminate|].
  destruct a' as [|d a''].
  - unfold endsInWord in Hend. simpl in Hend. simpl.
    assert (Hc : Ascii.eqb c "+" = false).
    { destruct (Ascii.eqb_spec c "+") as [->|]; [discriminate | reflexivity]. }
    rewrite Hc, andb_false_r. unfold wordBoundary at 1. simpl from_option.
    rewrite Hend. change (isWordChar "+") with false. reflexivity.
  - assert (Hend' : endsInWord (String d a'') = true) by exact Hend.
    specialize (IH (Some c) Hend').
    remember (String d a'') as a' eqn:Ha'.
    change ((String c a' ++ String "+" b)%string)
      with (String c (a' ++ String "+" b)%string).
    cbn [splitWordPlus]. rewrite IH.
    destruct (wordBoundary prev c && Ascii.eqb c "+"); [reflexivity|].
    pose proof (splitWordPlus_nonempty (Some c) a') as Hne.
    destruct (splitWordPlus (Some c) a'); [congruence | reflexivity].
Qed.

Lemma parsePress_alias_key navigator tok :
  endsInWord tok = true ->
  parsePress navigator (tok ++ "+$mod")%string
  = (fst (parsePress navigator tok)
       ++ [resolveAlias navigator (snd (parsePress navigator tok))],
     "$mod").
Proof.
  intros Hend. unfold parsePress, pop.
  rewrite (splitWordPlus_app None tok "$mod" Hend).
  change (splitWordPlus (Some "+"%char) "$mod") with ["$mod"].
  destruct (split_last (splitWordPlus None tok)) as (k & Hlast & Heq);
    [apply splitWordPlus_nonempty|].
  rewrite last_snoc, List.removelast_last. simpl default. simpl fst. simpl snd.
  rewrite Hlast. simpl default.
  rewrite Heq at 1. now rewrite map_app.
Qed.

(** ** Claims about the parser *)



(** C10.  The alias is resolved in modifier position only: no modifier of
    a parsed press is the alias itself, and a token that ends in the piece
    [$mod] keeps it as its key, whatever stands before it.  The token
    [$mod] alone parses to the press without modifiers whose key is the
    literal [$mod]. *)
Theorem C10_alias_only_in_modifier_position (navigator : option Navigator) :
  (forall tok, Forall (fun m => m <> "$mod") (fst (parsePress navigator tok)))
  /\ (forall tok,
        endsInWord tok = true ->
        parsePress navigator (tok ++ "+$mod")%string
        = (fst (parsePress navigator tok)
             ++ [resolveAlias navigator (snd (parsePress navigator tok))],
           "$mod"))
  /\ parseKeybinding navigator "$mod" = [([], "$mod")]
  /\ parseKeybinding navigator "$mod+$mod" = [([MOD navigator], "$mod")]
  /\ parseKeybinding navigator "$mod+d" = [([MOD navigator], "d")].
Proof.
  split; [|split; [|repeat split]].
  - intros tok. unfold parsePress, pop.
    destruct (last (splitWordPlus None tok)); simpl;
      apply List.Forall_forall; intros m Hin;
      apply in_map_iff in Hin as (m0 & <- & _); apply resolveAlias_not_alias.
  - intros tok Hend. now apply parsePress_alias_key.
Qed.

(** The second part at the token [Shift]. *)
Lemma C10_witness :
  endsInWord "Shift" = true
  /\ parsePress None "Shift+$mod" = (["Shift"], "$mod").
Proof.
  split; [reflexivity|].
  exact (proj1 (proj2 (C10_alias_only_in_modifier_position None)) "Shift" eq_refl).
Defined.

(** ** The press matcher *)

Lemma arrayIncludes_In l s : arrayIncludes l s = true <-> In s l.
Proof.
  unfold arrayIncludes. rewrite existsb_exists. split.
  - intros (x & Hin & Heq). apply String.eqb_eq in Heq. now subst.
  - intros Hin. exists s. split; [exact Hin | apply String.eqb_refl].
Qed.

Lemma truthy_find (p : string -> bool) (l : list string) :
  Forall (fun m => m <> "") l ->
  truthy (List.find p l) = false <-> forall m, In m l -> p m = false.
Proof.
  intros Hne. induction Hne as [|x l Hx _ IH]; simpl.
  - split; [intros _ m [] | reflexivity].
  - destruct (p x) eqn:Hp.
    + simpl. destruct (String.eqb_spec x "") as [->|_]; [congruence|]. simpl.
      split; [discriminate|]. intros H. specialize (H x (or_introl eq_refl)). congruence.
    + rewrite IH. split.
      * intros H m [<-|Hin]; [exact Hp | now apply H].
      * intros H m Hin. apply H. now right.
Qed.

Lemma KEYBINDING_MODIFIER_KEYS_nonempty :
  Forall (fun m => m <> "") KEYBINDING_MODIFIER_KEYS.
Proof. repeat constructor; discriminate. Qed.

(** The matcher on a press whose modifier names are not empty. *)
Lemma match_iff (e : KeyboardEvent) (press : KeyBindingPress) :
  Forall (fun m => m <> "") (fst press) ->
  match_ e press = true
  <-> keyAgrees e press /\ modifiersHeld e press /\ noExtraModifier e press.
Proof.
  intros Hne. unfold match_.
  rewrite negb_true_iff, !orb_false_iff.
  rewrite (truthy_find _ _ Hne), (truthy_find _ _ KEYBINDING_MODIFIER_KEYS_nonempty).
  unfold keyAgrees, modifiersHeld, noExtraModifier.
  rewrite andb_false_iff, !negb_false_iff, !String.eqb_eq.
  split.
  - intros ((Hk & Hm) & Hx). split; [exact Hk|]. split.
    + intros m Hin. apply negb_false_iff. now apply Hm.
    + intros m Hin Hact. specialize (Hx m Hin). rewrite Hact, andb_true_r in Hx.
      apply andb_false_iff in Hx as [Hx|Hx]; apply negb_false_iff in Hx.
      * left. now apply arrayIncludes_In.
      * right. now apply String.eqb_eq in Hx.
  - intros (Hk & Hm & Hx). split; [split; [exact Hk|]|].
    + intros m Hin. apply negb_false_iff. now apply Hm.
    + intros m Hin. destruct (getModifierState e m) eqn:Hact; [|apply andb_false_r].
      rewrite andb_true_r. apply andb_false_iff.
      destruct (Hx m Hin Hact) as [Hl| ->].
      * left. apply negb_false_iff. now apply arrayIncludes_In.
      * right. apply negb_false_iff. apply String.eqb_refl.
Qed.

Lemma match_extra_modifier (e : KeyboardEvent) (press : KeyBindingPress) (m : string) :
  In m KEYBINDING_MODIFIER_KEYS ->
  getModifierState e m = true ->
  ~ In m (fst press) ->
  snd press <> m ->
  match_ e press = false.
Proof.
  intros Hin Hact Hmods Hkey. unfold match_.
  apply negb_false_iff, orb_true_iff. right.
  apply not_false_iff_true. intros Hfind.
  apply (truthy_find _ _ KEYBINDING_MODIFIER_KEYS_nonempty) with (m := m) in Hfind;
    [|exact Hin].
  rewrite Hact, andb_true_r in Hfind.
  apply andb_false_iff in Hfind as [H|H]; apply negb_false_iff in H.
  - now apply arrayIncludes_In in H.
  - now apply String.eqb_eq in H.
Qed.

(** C1 (amended).  For every parsed press and every keyboard event, the
    matcher accepts the event if and only if the press's key equals the
    event's logical key case-insensitively or its physical code exactly,
    every modifier of the press is active on the event, and no modifier
    among Shift, Meta, Alt and Control is active on the event while being
    neither a modifier of the press nor its key.  An event that presents
    exactly the press's modifiers, with the key, matches; one that presents
    a strict subset does not; one that presents all of them and one more
    does not match when the extra modifier is among Shift, Meta, Alt and
    Control and is not the press's key. *)
Theorem C1_match_parsed_press (navigator : option Navigator) (str : string)
    (press : KeyBindingPress) (e : KeyboardEvent) :
  In press (parseKeybinding navigator str) ->
  (match_ e press = true
   <-> keyAgrees e press /\ modifiersHeld e press /\ noExtraModifier e press)
  /\ (keyAgrees e press -> presentsExactly e press -> match_ e press = true)
  /\ (presentsStrictSubset e press -> match_ e press = false)
  /\ (modifiersHeld e press ->
      (exists m, In m KEYBINDING_MODIFIER_KEYS /\ getModifierState e m = true
                 /\ ~ In m (fst press) /\ m <> snd press) ->
      match_ e press = false).
Proof.
  intros Hparsed.
  pose proof (parsed_modifiers_nonempty _ _ _ Hparsed) as Hne.
  pose proof (match_iff e press Hne) as Hiff.
  split; [exact Hiff|]. split; [|split].
  - intros Hkey Hexact. apply Hiff. split; [exact Hkey|]. split.
    + intros m Hin. now apply Hexact.
    + intros m _ Hact. left. now apply Hexact.
  - intros (_ & m & Hin & Hoff).
    apply not_true_iff_false. intros Hm. apply Hiff in Hm as (_ & Hheld & _).
    specialize (Hheld m Hin). congruence.
  - intros _ (m & Hin & Hact & Hmods & Hkey).
    apply (match_extra_modifier e press m); auto.
Qed.

(** The binding [Shift+d]: the event of [d] with Shift held matches, and
    with Control held too it does not. *)
Lemma C1_witness :
  In shiftD (parseKeybinding None "Shift+d")
  /\ match_ (keydown "D" "KeyD" ["Shift"]) shiftD = true
  /\ match_ (keydown "D" "KeyD" ["Shift"; "Control"]) shiftD = false.
Proof.
  assert (Hin : In shiftD (parseKeybinding None "Shift+d")) by (left; reflexivity).
  split; [exact Hin|]. split.
  - apply (proj1 (proj2 (C1_match_parsed_press None "Shift+d" shiftD
                           (keydown "D" "KeyD" ["Shift"]) Hin))).
    + left. reflexivity.
    + intros m. exact (arrayIncludes_In ["Shift"] m).
  - apply (proj2 (proj2 (proj2 (C1_match_parsed_press None "Shift+d" shiftD
                           (keydown "D" "KeyD" ["Shift"; "Control"]) Hin)))).
    + intros m [<-|[]]. reflexivity.
    + exists "Control". repeat split; simpl; try discriminate; try tauto.
      intros [H|[]]. discriminate.
Defined.

(** C1, as stated, fails on strict supersets.  The binding
    [Shift+Control] matches the keydown of Control with Shift held, on
    which Shift and Control are active; and the binding [Shift+d] matches
    the event of [d] with Shift held while CapsLock is on. *)
Lemma C1_counterexample_superset_matches :
  (parseKeybinding None "Shift+Control" = [(["Shift"], "Control")]
   /\ keyAgrees (keydown "Control" "ControlLeft" ["Shift"; "Control"]) (["Shift"], "Control")
   /\ presentsStrictSuperset (keydown "Control" "ControlLeft" ["Shift"; "Control"])
        (["Shift"], "Control")
   /\ match_ (keydown "Control" "ControlLeft" ["Shift"; "Control"]) (["Shift"], "Control")
      = true)
  /\ (parseKeybinding None "Shift+d" = [shiftD]
      /\ keyAgrees (keydown "D" "KeyD" ["Shift"; "CapsLock"]) shiftD
      /\ presentsStrictSuperset (keydown "D" "KeyD" ["Shift"; "CapsLock"]) shiftD
      /\ match_ (keydown "D" "KeyD" ["Shift"; "CapsLock"]) shiftD = true).
Proof.
  split; (split; [reflexivity|]); (split; [left; reflexivity|]);
    (split; [|reflexivity]); (split; [intros m [<-|[]]; reflexivity|]).
  - exists "Control". split; [reflexivity|]. intros [H|[]]. discriminate.
  - exists "CapsLock". split; [reflexivity|]. intros [H|[]]. discriminate.
Qed.

(** C9.  The check for an extraneous modifier compares the press's key
    with the modifier's name as strings: an active modifier among Shift,
    Meta, Alt and Control that is not a modifier of the press rejects the
    event unless the key is that very name.  On the keydown of Control,
    the press with the key [control] agrees on the key (the comparison of
    keys ignores case) and is rejected, and the press with the key
    [Control] is accepted. *)
Theorem C9_extra_modifier_check_verbatim :
  (forall (e : KeyboardEvent) (press : KeyBindingPress) (m : string),
      In m KEYBINDING_MODIFIER_KEYS ->
      getModifierState e m = true ->
      ~ In m (fst press) ->
      snd press <> m ->
      match_ e press = false)
  /\ keyAgrees (keydown "Control" "ControlLeft" ["Control"]) ([], "control")
  /\ match_ (keydown "Control" "ControlLeft" ["Control"]) ([], "control") = false
  /\ match_ (keydown "Control" "ControlLeft" ["Control"]) ([], "Control") = true.
Proof.
  split; [exact match_extra_modifier|].
  split; [left; reflexivity|]. split; reflexivity.
Qed.

(** The first part on the keydown of Control, for the key [control]. *)
Lemma C9_witness :
  In "Control" KEYBINDING_MODIFIER_KEYS
  /\ toUpperCase "control" = toUpperCase "Control"
  /\ match_ (keydown "Control" "ControlLeft" ["Control"]) ([], "control") = false.
Proof.
  assert (Hin : In "Control" KEYBINDING_MODIFIER_KEYS) by (simpl; tauto).
  split; [exact Hin|]. split; [reflexivity|].
  apply (proj1 C9_extra_modifier_check_verbatim
           (keydown "Control" "ControlLeft" ["Control"]) ([], "control") "Control" Hin).
  - reflexivity.
  - simpl. tauto.
  - simpl. discriminate.
Defined.

(** ** The sequence tracker *)

Section Tracker.
Variable navigator : option Navigator.
Variable keyBindingMap : KeyBindingMap.
Variable options : KeyBindingHandlerOptions.

Local Abbreviation keyBindings := (keyBindings navigator keyBindingMap).
Local Abbreviation handler := (handler navigator keyBindingMap options).
Local Abbreviation step := (step navigator keyBindingMap options).
Local Abbreviation reachable := (reachable navigator keyBindingMap options).
Local Abbreviation entryOk := (entryOk navigator keyBindingMap).
Local Abbreviation tableOk := (tableOk navigator keyBindingMap).
Local Abbreviation suppressed := (suppressed options).
Local Abbreviation rearm := (rearm options).

Ltac track_unfold :=
  unfold trackBinding, mbind, M_bind, mapGet, mapSet, mapDelete, call, throw,
    mret, M_ret, setMatches; cbn [fst snd].

Ltac track_finish :=
  eexists; split; [reflexivity|]; cbn;
  split; [first [apply lookup_delete_eq | apply lookup_insert_eq | eassumption]|];
  split; cbn; rewrite ?app_nil_r; try reflexivity;
  intros j Hj; first [now apply lookup_delete_ne | now apply lookup_insert_ne | reflexivity].

(** The outcome and the effect of the body of the loop on one binding
    that has a press to wait for. *)
Lemma trackBinding_step (e : KeyboardEvent) (i : nat)
    (kb : list KeyBindingPress * Callback) (st : State) :
  Spec.remaining (fst kb) (possibleMatches st !! i) <> [] ->
  exists st',
    trackBinding e i kb st
    = (if Spec.completes e (fst kb) (possibleMatches st !! i)
       then match snd kb e with None => Normal tt | Some v => Throw v end
       else Normal tt, st')
    /\ possibleMatches st' !! i = Spec.progress e (fst kb) (possibleMatches st !! i)
    /\ trackEffect e i st st'
         (if Spec.completes e (fst kb) (possibleMatches st !! i) then [(i, e)] else []).
Proof.
  intros Hne. track_unfold.
  unfold Spec.completes, Spec.progress, Spec.remaining in *.
  destruct (possibleMatches st !! i) as [rem|] eqn:Hentry; cbn [from_option id] in *;
    [destruct rem as [|p rest] | destruct (fst kb) as [|p rest]];
    try congruence; cbv beta iota zeta;
    destruct rest as [|q rest']; destruct (match_ e p) eqn:Hm; cbn;
    try destruct (snd kb e); try destruct (getModifierState e (key e)); cbn;
    track_finish.
Qed.

Lemma completes_progress (e : KeyboardEvent) (sequence : list KeyBindingPress)
    (entry : option (list KeyBindingPress)) :
  Spec.completes e sequence entry = true -> Spec.progress e sequence entry = None.
Proof.
  unfold Spec.completes, Spec.progress.
  destruct (Spec.remaining sequence entry) as [|p [|q rest]]; try discriminate.
  now intros ->.
Qed.

(** The effect of the body of the loop whatever its outcome: it touches
    the entry of its own binding only, and if it calls the callback, the
    entry is absent afterwards. *)
Lemma trackBinding_effect (e : KeyboardEvent) (i : nat)
    (kb : list KeyBindingPress * Callback) (st : State) :
  exists new,
    trackEffect e i st (snd (trackBinding e i kb st)) new
    /\ forall c, In c new ->
         c = (i, e) /\ possibleMatches (snd (trackBinding e i kb st)) !! i = None.
Proof.
  destruct (Spec.remaining (fst kb) (possibleMatches st !! i)) as [|p rest] eqn:Hrem.
  - exists []. unfold trackBinding, mbind, M_bind, mapGet.
    unfold Spec.remaining in Hrem.
    replace (default (fst kb) (possibleMatches st !! i)) with (@nil KeyBindingPress)
      by (destruct (possibleMatches st !! i); now cbn).
    cbn. split; [|intros c []].
    split; try reflexivity. now rewrite app_nil_r.
  - destruct (trackBinding_step e i kb st) as (st' & Heq & Hi & Heff);
      [rewrite Hrem; discriminate|].
    rewrite Heq. cbn [snd]. eexists. split; [exact Heff|].
    intros c Hc. destruct (Spec.completes e (fst kb) (possibleMatches st !! i)) eqn:Hcomp;
      [|destruct Hc].
    destruct Hc as [<-|[]]. split; [reflexivity|].
    rewrite Hi. now apply completes_progress.
Qed.

Lemma forEach_cons {A} (f : nat -> A -> M unit) (i : nat) (x : A) (l : list A)
    (st : State) :
  forEach f i (x :: l) st
  = match f i x st with
    | (Normal _, st') => forEach f (S i) l st'
    | (Throw v, st') => (Throw v, st')
    end.
Proof. reflexivity. Qed.

Lemma forEach_app {A} (f : nat -> A -> M unit) (l1 l2 : list A) (i : nat) (st : State) :
  forEach f i (l1 ++ l2) st
  = match forEach f i l1 st with
    | (Normal _, st') => forEach f (i + length l1) l2 st'
    | (Throw v, st') => (Throw v, st')
    end.
Proof.
  revert i st. induction l1 as [|x l1 IH]; intros i st.
  - cbn. now rewrite Nat.add_0_r.
  - cbn [app length]. rewrite !forEach_cons.
    destruct (f i x st) as [[[]|v] st']; [|reflexivity].
    rewrite IH. now replace (S i + length l1) with (i + S (length l1)) by lia.
Qed.

(** The effect of the loop whatever its outcome. *)
Lemma forEach_effect (e : KeyboardEvent) (l : list (list KeyBindingPress * Callback))
    (k : nat) (st : State) :
  exists new,
    calls (snd (forEach (trackBinding e) k l st)) = calls st ++ new
    /\ (forall j, j < k \/ k + length l <= j ->
          possibleMatches (snd (forEach (trackBinding e) k l st)) !! j
          = possibleMatches st !! j)
    /\ timer (snd (forEach (trackBinding e) k l st)) = timer st
    /\ pending (snd (forEach (trackBinding e) k l st)) = pending st
    /\ nextTimer (snd (forEach (trackBinding e) k l st)) = nextTimer st
    /\ now (snd (forEach (trackBinding e) k l st)) = now st
    /\ forall c, In c new ->
         snd c = e /\ k <= fst c < k + length l
         /\ possibleMatches (snd (forEach (trackBinding e) k l st)) !! fst c = None.
Proof.
  revert k st. induction l as [|kb l IH]; intros k st.
  - exists []. cbn. rewrite app_nil_r.
    do 6 (split; [reflexivity|]). intros c [].
  - rewrite forEach_cons.
    destruct (trackBinding_effect e k kb st) as (new1 & Heff & Hnew1).
    destruct (trackBinding e k kb st) as [[[]|v] st1]; cbn [snd] in *.
    + destruct (IH (S k) st1) as (new2 & Hcalls & Hout & Ht & Hp & Hn & Hnow & Hnew2).
      destruct Heff as [Ho1 Hc1 Ht1 Hp1 Hn1 Hnow1].
      exists (new1 ++ new2). cbn [length].
      split; [rewrite Hcalls, Hc1; now rewrite app_assoc|].
      split; [intros j Hj; rewrite Hout by lia; apply Ho1; lia|].
      split; [congruence|]. split; [congruence|]. split; [congruence|].
      split; [congruence|].
      intros c Hc. apply in_app_iff in Hc as [Hc|Hc].
      * destruct (Hnew1 c Hc) as [-> Hnone]. cbn [fst snd].
        split; [reflexivity|]. split; [lia|].
        rewrite Hout by lia. exact Hnone.
      * destruct (Hnew2 c Hc) as (He & Hrange & Hnone).
        split; [exact He|]. split; [lia | exact Hnone].
    + destruct Heff as [Ho1 Hc1 Ht1 Hp1 Hn1 Hnow1].
      exists new1. cbn [length].
      split; [exact Hc1|]. split; [intros j Hj; apply Ho1; lia|].
      repeat (split; [assumption|]).
      intros c Hc. destruct (Hnew1 c Hc) as [-> Hnone]. cbn [fst snd].
      split; [reflexivity|]. split; [lia | exact Hnone].
Qed.

Lemma completed_ext (e : KeyboardEvent) (t1 t2 : gmap nat (list KeyBindingPress))
    (l : list (list KeyBindingPress * Callback)) (k : nat) :
  (forall j, k <= j -> t1 !! j = t2 !! j) ->
  Spec.completed e t1 k l = Spec.completed e t2 k l.
Proof.
  revert k. induction l as [|kb l IH]; intros k Hext; [reflexivity|].
  cbn. rewrite (Hext k) by lia. f_equal. apply IH. intros j Hj. apply Hext. lia.
Qed.

(** The loop when no callback it calls throws: every binding is
    evaluated on the entry it had before the event. *)
Lemma forEach_normal (e : KeyboardEvent) (l : list (list KeyBindingPress * Callback))
    (k : nat) (st : State) :
  (forall j kb, l !! j = Some kb ->
     Spec.remaining (fst kb) (possibleMatches st !! (k + j)) <> []) ->
  (forall j kb, l !! j = Some kb ->
     Spec.completes e (fst kb) (possibleMatches st !! (k + j)) = true ->
     snd kb e = None) ->
  exists st',
    forEach (trackBinding e) k l st = (Normal tt, st')
    /\ (forall j kb, l !! j = Some kb ->
          possibleMatches st' !! (k + j)
          = Spec.progress e (fst kb) (possibleMatches st !! (k + j)))
    /\ calls st' = calls st ++ Spec.completed e (possibleMatches st) k l.
Proof.
  revert k st. induction l as [|kb l IH]; intros k st Hne Hok.
  - exists st. cbn. rewrite app_nil_r. repeat split. intros j kb0 H. discriminate.
  - rewrite forEach_cons.
    destruct (trackBinding_step e k kb st) as (st1 & Heq & Hk & Heff).
    { specialize (Hne 0 kb eq_refl). now rewrite Nat.add_0_r in Hne. }
    assert (Hret : (if Spec.completes e (fst kb) (possibleMatches st !! k)
                    then match snd kb e with None => Normal tt | Some v => Throw v end
                    else Normal tt) = Normal tt).
    { destruct (Spec.completes e (fst kb) (possibleMatches st !! k)) eqn:Hc; [|reflexivity].
      assert (Hcb : snd kb e = None).
      { apply (Hok 0 kb eq_refl). now rewrite Nat.add_0_r. }
      now rewrite Hcb. }
    rewrite Heq, Hret. destruct Heff as [Ho1 Hc1 _ _ _ _].
    destruct (IH (S k) st1) as (st' & Hrun & Hprog & Hcalls).
    { intros j kb0 Hj. rewrite Ho1 by lia.
      replace (S k + j) with (k + S j) by lia. now apply Hne. }
    { intros j kb0 Hj. rewrite Ho1 by lia.
      replace (S k + j) with (k + S j) by lia. now apply Hok. }
    exists st'. split; [exact Hrun|]. split.
    + intros [|j] kb0 Hj.
      * cbn in Hj. injection Hj as <-. rewrite Nat.add_0_r.
        destruct (forEach_effect e l (S k) st1) as (_ & _ & Hout & _).
        rewrite Hrun in Hout. cbn [snd] in Hout. rewrite Hout by lia. exact Hk.
      * cbn in Hj. replace (k + S j) with (S k + j) by lia.
        rewrite (Hprog j kb0 Hj). now rewrite Ho1 by lia.
    + rewrite Hcalls, Hc1, <- app_assoc. cbn [Spec.completed]. do 2 f_equal.
      apply completed_ext. intros j Hj. apply Ho1. lia.
Qed.

(** *** Well-formed tables *)

Lemma keyBindings_sequence_nonempty (i : nat) (kb : list KeyBindingPress * Callback) :
  keyBindings !! i = Some kb -> fst kb <> [].
Proof.
  unfold Tinykeys.keyBindings. rewrite list_lookup_fmap.
  intros H. apply fmap_Some in H as (kv & _ & ->).
  apply parseKeybinding_nonempty.
Qed.

Lemma remaining_nonempty (table : gmap nat (list KeyBindingPress)) (i : nat)
    (kb : list KeyBindingPress * Callback) :
  tableOk table -> keyBindings !! i = Some kb ->
  Spec.remaining (fst kb) (table !! i) <> [].
Proof.
  intros Hok Hkb. unfold Spec.remaining.
  destruct (table !! i) as [rem|] eqn:Hentry.
  - destruct (Hok i rem Hentry) as (_ & _ & _ & _ & Hrem & _). exact Hrem.
  - now apply (keyBindings_sequence_nonempty i).
Qed.

Lemma progress_ok (e : KeyboardEvent) (i : nat) (kb : list KeyBindingPress * Callback)
    (entry : option (list KeyBindingPress)) (r : list KeyBindingPress) :
  keyBindings !! i = Some kb ->
  (forall rem, entry = Some rem -> entryOk i rem) ->
  Spec.progress e (fst kb) entry = Some r ->
  entryOk i r.
Proof.
  intros Hkb Hentry. unfold Spec.progress.
  destruct (Spec.remaining (fst kb) entry) as [|p rest] eqn:Hrem; [now apply Hentry|].
  destruct (match_ e p).
  - destruct rest as [|q rest']; [discriminate|]. intros [= <-].
    unfold Spec.remaining in Hrem. destruct entry as [rem|].
    + subst rem. destruct (Hentry _ eq_refl) as (kb' & pre & Hkb' & Hpre & _ & Hseq).
      exists kb', (pre ++ [p]). split; [exact Hkb'|].
      split; [destruct pre; discriminate|]. split; [discriminate|].
      now rewrite <- app_assoc.
    + exists kb, [p]. split; [exact Hkb|]. split; [discriminate|].
      split; [discriminate | exact Hrem].
  - destruct (getModifierState e (key e)); [now apply Hentry | discriminate].
Qed.

Lemma forEach_tableOk (e : KeyboardEvent) (l : list (list KeyBindingPress * Callback))
    (k : nat) (st : State) :
  (forall j kb, l !! j = Some kb -> keyBindings !! (k + j) = Some kb) ->
  tableOk (possibleMatches st) ->
  tableOk (possibleMatches (snd (forEach (trackBinding e) k l st))).
Proof.
  revert k st. induction l as [|kb l IH]; intros k st Hl Hok; [exact Hok|].
  assert (Hkb : keyBindings !! k = Some kb).
  { specialize (Hl 0 kb eq_refl). now rewrite Nat.add_0_r in Hl. }
  rewrite forEach_cons.
  destruct (trackBinding_step e k kb st) as (st1 & Heq & Hk & Heff);
    [now apply remaining_nonempty|].
  assert (Hok1 : tableOk (possibleMatches st1)).
  { intros i rem Hi. destruct (decide (i = k)) as [->|Hik].
    - rewrite Hk in Hi.
      apply (progress_ok e k kb (possibleMatches st !! k) rem Hkb); [|exact Hi].
      intros rem0 H0. now apply Hok.
    - rewrite (te_others _ _ _ _ _ Heff i Hik) in Hi. now apply Hok. }
  rewrite Heq.
  destruct (if Spec.completes e (fst kb) (possibleMatches st !! k)
            then match snd kb e with None => Normal tt | Some v => Throw v end
            else Normal tt) as [[]|v]; [|exact Hok1].
  apply IH; [|exact Hok1].
  intros j kb0 Hj. replace (S k + j) with (k + S j) by lia. now apply Hl.
Qed.

(** *** The handler as a whole *)

Lemma handler_other (st : State) : handler OtherEvent st = (Normal tt, st).
Proof. reflexivity. Qed.

Lemma handler_suppressed (e : KeyboardEvent) (st : State) :
  suppressed e = true -> handler (KeyboardEv e) st = (Normal tt, st).
Proof. unfold Spec.suppressed, Tinykeys.handler. now intros ->. Qed.

Lemma handler_run (e : KeyboardEvent) (st : State) :
  suppressed e = false ->
  handler (KeyboardEv e) st
  = match forEach (trackBinding e) 0 keyBindings st with
    | (Normal _, st1) => (Normal tt, rearm st1)
    | (Throw v, st1) => (Throw v, st1)
    end.
Proof.
  unfold Spec.suppressed, Tinykeys.handler. intros ->.
  unfold mbind, M_bind at 1.
  destruct (forEach (trackBinding e) 0 keyBindings st) as [[[]|v] st1]; [|reflexivity].
  unfold Spec.rearm, M_bind, getTimer, clearTimeout, setTimeout, setTimer, mret, M_ret.
  destruct (timer st1) as [[|id]|]; reflexivity.
Qed.

Lemma filter_singleton {A} (f : A -> bool) (x : A) :
  List.filter f [x] = [] \/ List.filter f [x] = [x].
Proof. cbn. destruct (f x); [now right | now left]. Qed.

Lemma rearm_pending (st : State) :
  timersOk st ->
  pending (rearm st) = [(nextTimer st, (now st + timeoutOf options)%N)].
Proof.
  intros [_ [Hnone|(id & due & Ht & Hid & Hp)]]; unfold Spec.rearm; cbn [pending].
  - rewrite Hnone. now destruct (timer st) as [[|id]|].
  - rewrite Ht, Hp. destruct id as [|id]; [lia|].
    cbn. now rewrite Nat.eqb_refl.
Qed.

Lemma rearm_timersOk (st : State) : timersOk st -> timersOk (rearm st).
Proof.
  intros Hok. split; [cbn; lia|]. right.
  exists (nextTimer st), (now st + timeoutOf options)%N.
  split; [reflexivity|]. split; [|now apply rearm_pending].
  cbn. destruct Hok as [Hn _]. lia.
Qed.

Lemma handler_timersOk (event : Event) (st : State) :
  timersOk st -> timersOk (snd (handler event st)).
Proof.
  intros Hok. destruct event as [e|]; [|exact Hok].
  destruct (suppressed e) eqn:Hs; [now rewrite handler_suppressed|].
  rewrite (handler_run e st Hs).
  destruct (forEach_effect e keyBindings 0 st) as (_ & _ & _ & Ht & Hp & Hn & _).
  destruct (forEach (trackBinding e) 0 keyBindings st) as [[[]|v] st1]; cbn [snd] in *.
  - apply rearm_timersOk. unfold timersOk. now rewrite Ht, Hp, Hn.
  - unfold timersOk. now rewrite Ht, Hp, Hn.
Qed.

Lemma handler_tableOk (event : Event) (st : State) :
  tableOk (possibleMatches st) -> tableOk (possibleMatches (snd (handler event st))).
Proof.
  intros Hok. destruct event as [e|]; [|exact Hok].
  destruct (suppressed e) eqn:Hs; [now rewrite handler_suppressed|].
  rewrite (handler_run e st Hs).
  pose proof (forEach_tableOk e keyBindings 0 st (fun j kb H => H) Hok) as Hok1.
  destruct (forEach (trackBinding e) 0 keyBindings st) as [[[]|v] st1]; exact Hok1.
Qed.

Lemma elapse_tableOk (dt : N) (st : State) :
  tableOk (possibleMatches st) -> tableOk (possibleMatches (elapse dt st)).
Proof.
  intros Hok. unfold elapse; cbn [possibleMatches].
  destruct (List.filter _ (pending st)); [exact Hok|].
  intros i rem Hi. rewrite lookup_empty in Hi. discriminate.
Qed.

Lemma elapse_timersOk (dt : N) (st : State) : timersOk st -> timersOk (elapse dt st).
Proof.
  intros [Hn [Hnone|(id & due & Ht & Hid & Hp)]]; (split; [exact Hn|]);
    unfold elapse; cbn [pending timer].
  - left. now rewrite Hnone.
  - rewrite Hp. destruct (filter_singleton (fun p => negb (snd p <=? (now st + dt))%N) (id, due))
      as [-> | ->]; [now left|].
    right. now exists id, due.
Qed.

Lemma initial_ok : tableOk (possibleMatches initial) /\ timersOk initial.
Proof.
  split.
  - intros i rem Hi. cbn in Hi. rewrite lookup_empty in Hi. discriminate.
  - split; [cbn; lia | now left].
Qed.

Lemma reachable_ok (st : State) :
  reachable st -> tableOk (possibleMatches st) /\ timersOk st.
Proof.
  induction 1 as [|st s _ [Ht Hp]]; [exact initial_ok|].
  destruct s as [event|dt]; cbn [Tinykeys.step].
  - split; [now apply handler_tableOk | now apply handler_timersOk].
  - split; [now apply elapse_tableOk | now apply elapse_timersOk].
Qed.

Lemma reachable_run (steps : list Step) (st : State) :
  reachable st -> reachable (run navigator keyBindingMap options steps st).
Proof.
  revert st. induction steps as [|s steps IH]; intros st Hst; [exact Hst|].
  cbn. apply IH. now constructor.
Qed.

(** The handler on an event it processes, when no callback it calls
    throws. *)
Lemma handler_normal (e : KeyboardEvent) (st : State) :
  tableOk (possibleMatches st) ->
  suppressed e = false ->
  (forall j kb, keyBindings !! j = Some kb ->
     Spec.completes e (fst kb) (possibleMatches st !! j) = true -> snd kb e = None) ->
  exists st1,
    forEach (trackBinding e) 0 keyBindings st = (Normal tt, st1)
    /\ handler (KeyboardEv e) st = (Normal tt, rearm st1)
    /\ (forall j kb, keyBindings !! j = Some kb ->
          possibleMatches st1 !! j = Spec.progress e (fst kb) (possibleMatches st !! j))
    /\ calls st1 = calls st ++ Spec.completed e (possibleMatches st) 0 keyBindings
    /\ timer st1 = timer st /\ pending st1 = pending st
    /\ nextTimer st1 = nextTimer st /\ now st1 = now st.
Proof.
  intros Hok Hs Hcb.
  destruct (forEach_normal e keyBindings 0 st) as (st1 & Hrun & Hprog & Hcalls).
  { intros j kb Hj. now apply remaining_nonempty. }
  { exact Hcb. }
  destruct (forEach_effect e keyBindings 0 st) as (_ & _ & _ & Ht & Hp & Hn & Hnow & _).
  rewrite Hrun in Ht, Hp, Hn, Hnow. cbn [snd] in *.
  exists st1. split; [exact Hrun|]. split; [now rewrite (handler_run e st Hs), Hrun|].
  split; [exact Hprog|]. split; [exact Hcalls|]. now repeat split.
Qed.

(** C2 (amended).  On an event that the handler processes and on which
    no callback it calls throws, every binding's progress is updated on
    its own, from the entry the binding had (or, absent that, its full
    sequence): the entry is deleted when the event does not match the
    first remaining press, unless the event's own key is an active
    modifier, which leaves it as it was; it becomes the remaining presses
    without the first when the event matches and more than one remains;
    and it is deleted, and the callback called with the event, when the
    event matches the last remaining press.  The callbacks of all the
    bindings that complete are called, in the order of the bindings. *)
Theorem C2_tracker_updates_every_binding (e : KeyboardEvent) (st : State) :
  reachable st ->
  suppressed e = false ->
  (forall j kb, keyBindings !! j = Some kb ->
     Spec.completes e (fst kb) (possibleMatches st !! j) = true -> snd kb e = None) ->
  fst (handler (KeyboardEv e) st) = Normal tt
  /\ (forall j kb, keyBindings !! j = Some kb ->
        possibleMatches (snd (handler (KeyboardEv e) st)) !! j
        = Spec.progress e (fst kb) (possibleMatches st !! j))
  /\ calls (snd (handler (KeyboardEv e) st))
     = calls st ++ Spec.completed e (possibleMatches st) 0 keyBindings.
Proof.
  intros Hreach Hs Hcb. destruct (reachable_ok st Hreach) as [Hok _].
  destruct (handler_normal e st Hok Hs Hcb) as (st1 & _ & -> & Hprog & Hcalls & _).
  cbn [fst snd]. split; [reflexivity|]. split; [exact Hprog | exact Hcalls].
Qed.

(** C8.  When the callback of a binding throws (the binding completes
    on the event, and no callback called before it threw), the handler
    throws the same value; the binding's entry is already deleted; the
    bindings after it are not evaluated, their entries are as before and
    none of their callbacks is called; and the timer is neither cancelled
    nor scheduled again. *)
Theorem C8_throwing_callback_stops_the_handler (e : KeyboardEvent) (st : State)
    (i : nat) (kb : list KeyBindingPress * Callback) (v : string) :
  reachable st ->
  suppressed e = false ->
  keyBindings !! i = Some kb ->
  Spec.completes e (fst kb) (possibleMatches st !! i) = true ->
  snd kb e = Some v ->
  (forall j kb', j < i -> keyBindings !! j = Some kb' ->
     Spec.completes e (fst kb') (possibleMatches st !! j) = true -> snd kb' e = None) ->
  fst (handler (KeyboardEv e) st) = Throw v
  /\ possibleMatches (snd (handler (KeyboardEv e) st)) !! i = None
  /\ (forall j, i < j ->
        possibleMatches (snd (handler (KeyboardEv e) st)) !! j = possibleMatches st !! j)
  /\ calls (snd (handler (KeyboardEv e) st))
     = calls st ++ Spec.completed e (possibleMatches st) 0 (take i keyBindings) ++ [(i, e)]
  /\ timer (snd (handler (KeyboardEv e) st)) = timer st
  /\ pending (snd (handler (KeyboardEv e) st)) = pending st
  /\ nextTimer (snd (handler (KeyboardEv e) st)) = nextTimer st.
Proof.
  intros Hreach Hs Hkb Hcomp Hthrow Hbefore.
  destruct (reachable_ok st Hreach) as [Hok _].
  rewrite (handler_run e st Hs).
  pose proof (lookup_lt_Some _ _ _ Hkb) as Hlt.
  assert (Hlen : length (take i keyBindings) = i) by (rewrite length_take; lia).
  replace (forEach (trackBinding e) 0 keyBindings st)
    with (forEach (trackBinding e) 0 (take i keyBindings ++ kb :: drop (S i) keyBindings) st)
    by (now rewrite take_drop_middle).
  rewrite forEach_app, Hlen.
  destruct (forEach_normal e (take i keyBindings) 0 st) as (st1 & Hrun & _ & Hcalls1).
  { intros j kb' Hj. apply lookup_take_Some in Hj as [Hj _].
    now apply remaining_nonempty. }
  { intros j kb' Hj. pose proof Hj as Hj'. apply lookup_take_Some in Hj' as [Hj' Hji].
    now apply Hbefore. }
  destruct (forEach_effect e (take i keyBindings) 0 st)
    as (_ & _ & Hout1 & Ht1 & Hp1 & Hn1 & _).
  rewrite Hrun in Hout1, Ht1, Hp1, Hn1 |- *. cbn [snd] in *. rewrite Hlen in Hout1.
  cbn [Nat.add]. rewrite forEach_cons.
  assert (Hi1 : possibleMatches st1 !! i = possibleMatches st !! i) by (apply Hout1; lia).
  destruct (trackBinding_step e i kb st1) as (st2 & Heq & Hi2 & Heff).
  { rewrite Hi1. now apply remaining_nonempty. }
  rewrite Heq, Hi1, Hcomp, Hthrow. cbn [fst snd].
  rewrite Hi1, Hcomp in Heff. destruct Heff as [Ho2 Hc2 Ht2 Hp2 Hn2 _].
  split; [reflexivity|]. split; [rewrite Hi2, Hi1; now apply completes_progress|].
  split; [intros j Hj; rewrite Ho2 by lia; apply Hout1; lia|].
  split; [rewrite Hc2, Hcalls1; now rewrite <- app_assoc|].
  split; [congruence|]. split; congruence.
Qed.

Lemma keyBindings_lookup (i : nat) (kb : list KeyBindingPress * Callback) :
  keyBindings !! i = Some kb ->
  exists text, keyBindingMap !! i = Some (text, snd kb)
               /\ fst kb = parseKeybinding navigator text.
Proof.
  unfold Tinykeys.keyBindings. rewrite list_lookup_fmap.
  intros H. apply fmap_Some in H as ([text cb] & Hkv & ->).
  exists text. split; [exact Hkv | reflexivity].
Qed.

(** C6.  In every state the handler reaches by events and timeouts, an
    entry of the table belongs to a binding and is a part of that
    binding's parsed sequence that is still to come: it is not empty and
    something stands before it.  In the step that calls a binding's
    callback the binding's entry is cleared: after the step, no binding
    whose callback was called in it has an entry. *)
Theorem C6_entries_are_proper_suffixes (st : State) :
  reachable st ->
  (forall i rem, possibleMatches st !! i = Some rem ->
     exists text callback pre,
       keyBindingMap !! i = Some (text, callback)
       /\ parseKeybinding navigator text = pre ++ rem
       /\ pre <> [] /\ rem <> [])
  /\ (forall s, exists new,
        calls (step s st) = calls st ++ new
        /\ forall c, In c new -> possibleMatches (step s st) !! fst c = None).
Proof.
  intros Hreach. destruct (reachable_ok st Hreach) as [Hok _]. split.
  - intros i rem Hi. destruct (Hok i rem Hi) as (kb & pre & Hkb & Hpre & Hrem & Hseq).
    destruct (keyBindings_lookup i kb Hkb) as (text & Hmap & Hparse).
    exists text, (snd kb), pre. rewrite <- Hparse. now repeat split.
  - intros [[e|]|dt]; cbn [Tinykeys.step].
    + destruct (suppressed e) eqn:Hs.
      * rewrite (handler_suppressed e st Hs). exists []. cbn.
        split; [now rewrite app_nil_r | intros c []].
      * rewrite (handler_run e st Hs).
        destruct (forEach_effect e keyBindings 0 st) as (new & Hcalls & _ & _ & _ & _ & _ & Hnew).
        exists new.
        destruct (forEach (trackBinding e) 0 keyBindings st) as [[[]|v] st1];
          cbn [snd] in *; (split; [exact Hcalls|]); intros c Hc; now apply Hnew.
    + exists []. cbn. split; [now rewrite app_nil_r | intros c []].
    + exists []. cbn. split; [now rewrite app_nil_r | intros c []].
Qed.

(** *** The timer *)

Lemma elapse_due (dt : N) (st : State) (id : nat) (due : N) :
  pending st = [(id, due)] ->
  (due <= now st + dt)%N ->
  possibleMatches (elapse dt st) = ∅ /\ pending (elapse dt st) = [].
Proof.
  intros Hp Hdue. unfold elapse. cbn [possibleMatches pending]. rewrite Hp. cbn.
  apply N.leb_le in Hdue. now rewrite Hdue.
Qed.

Lemma elapse_not_due (dt : N) (st : State) (id : nat) (due : N) :
  pending st = [(id, due)] ->
  (now st + dt < due)%N ->
  possibleMatches (elapse dt st) = possibleMatches st
  /\ pending (elapse dt st) = pending st.
Proof.
  intros Hp Hdue. unfold elapse. cbn [possibleMatches pending]. rewrite Hp. cbn.
  apply N.leb_gt in Hdue. now rewrite Hdue.
Qed.

(** C4 (amended).  On an event that the handler processes and on which
    no callback it calls throws, the handler cancels the timeout that is
    pending, if any, and schedules one that is due [timeout] milliseconds
    (1000 when the option is not set) after the event, for a [timeout]
    below 2^31, which the host takes as it is; it is then the only one
    pending.  When it runs it clears the whole table: before [timeout]
    milliseconds have passed the table and the timer are as the event
    left them, and once they have passed the table is empty and every
    binding waits for its full sequence again. *)
Theorem C4_timer_rearmed_on_completed_event (e : KeyboardEvent) (st : State) :
  reachable st ->
  suppressed e = false ->
  (forall j kb, keyBindings !! j = Some kb ->
     Spec.completes e (fst kb) (possibleMatches st !! j) = true -> snd kb e = None) ->
  (timeoutOf options < 2 ^ 31)%N ->
  timer (snd (handler (KeyboardEv e) st)) = Some (nextTimer st)
  /\ pending (snd (handler (KeyboardEv e) st))
     = [(nextTimer st, (now st + timeoutOf options)%N)]
  /\ (forall p, In p (pending st) -> fst p <> nextTimer st)
  /\ (timeout options = None -> timeoutOf options = 1000%N)
  /\ (forall dt, (dt < timeoutOf options)%N ->
        possibleMatches (elapse dt (snd (handler (KeyboardEv e) st)))
        = possibleMatches (snd (handler (KeyboardEv e) st))
        /\ pending (elapse dt (snd (handler (KeyboardEv e) st)))
           = pending (snd (handler (KeyboardEv e) st)))
  /\ (forall dt, (timeoutOf options <= dt)%N ->
        possibleMatches (elapse dt (snd (handler (KeyboardEv e) st))) = ∅
        /\ pending (elapse dt (snd (handler (KeyboardEv e) st))) = []
        /\ forall i kb, keyBindings !! i = Some kb ->
             Spec.remaining (fst kb)
               (possibleMatches (elapse dt (snd (handler (KeyboardEv e) st))) !! i)
             = fst kb).
Proof.
  intros Hreach Hs Hcb _. destruct (reachable_ok st Hreach) as [Hok Htimers].
  destruct (handler_normal e st Hok Hs Hcb)
    as (st1 & _ & -> & _ & _ & Ht & Hp & Hn & Hnow).
  cbn [snd].
  assert (Htimers1 : timersOk st1) by (unfold timersOk; now rewrite Ht, Hp, Hn).
  pose proof (rearm_pending st1 Htimers1) as Hpend. rewrite Hn, Hnow in Hpend.
  split; [cbn; now rewrite Hn|]. split; [exact Hpend|]. split; [|split; [|split]].
  - intros p Hin. destruct Htimers as [_ [Hnone|(id & due & _ & Hid & Hpst)]].
    + rewrite Hnone in Hin. destruct Hin.
    + rewrite Hpst in Hin. destruct Hin as [<-|[]]. cbn. lia.
  - unfold timeoutOf. now intros ->.
  - intros dt Hdt. apply (elapse_not_due dt _ _ _ Hpend).
    change (now (rearm st1)) with (now st1). rewrite Hnow. lia.
  - intros dt Hdt.
    destruct (elapse_due dt _ _ _ Hpend) as [Hempty Hnone];
      [change (now (rearm st1)) with (now st1); rewrite Hnow; lia|].
    split; [exact Hempty|]. split; [exact Hnone|].
    intros i kb _. rewrite Hempty, lookup_empty. reflexivity.
Qed.

(** *** Repeats *)

Lemma match_sameKeystroke (e1 e2 : KeyboardEvent) (press : KeyBindingPress) :
  sameKeystroke e1 e2 -> match_ e1 press = match_ e2 press.
Proof.
  intros (Hk & Hc & Hm). unfold match_, getModifierState. now rewrite Hk, Hc, Hm.
Qed.

Lemma trackBinding_sameKeystroke (e1 e2 : KeyboardEvent) (i : nat)
    (kb : list KeyBindingPress * Callback) (st1 st2 : State) :
  sameKeystroke e1 e2 ->
  (Spec.completes e1 (fst kb) (possibleMatches st1 !! i) = true ->
   snd kb e1 = snd kb e2) ->
  sameButEvents st1 st2 ->
  fst (trackBinding e1 i kb st1) = fst (trackBinding e2 i kb st2)
  /\ sameButEvents (snd (trackBinding e1 i kb st1)) (snd (trackBinding e2 i kb st2)).
Proof.
  intros Hsame Hcb (Htab & Ht & Hp & Hn & Hnow & Hcalls).
  assert (Hmod : getModifierState e1 (key e1) = getModifierState e2 (key e2)).
  { destruct Hsame as (Hk & _ & Hm). unfold getModifierState. now rewrite Hk, Hm. }
  assert (Hcb' : match default (fst kb) (possibleMatches st2 !! i) with
                 | [p] => match_ e1 p
                 | _ => false
                 end = true -> snd kb e1 = snd kb e2).
  { intros H. apply Hcb. unfold Spec.completes, Spec.remaining. rewrite Htab.
    destruct (possibleMatches st2 !! i); exact H. }
  track_unfold. rewrite Htab, Hmod. revert Hcb'.
  destruct (default (fst kb) (possibleMatches st2 !! i)) as [|p rest]; intros Hcb'.
  - cbn. now repeat split.
  - rewrite (match_sameKeystroke e1 e2 p Hsame) in Hcb' |- *.
    destruct (match_ e2 p); cbn [negb].
    + destruct rest as [|q rest]; cbn.
      * rewrite (Hcb' eq_refl).
        destruct (snd kb e2); cbn; unfold sameButEvents; cbn;
          rewrite Htab, !List.map_app; repeat split; try assumption;
          cbn; f_equal; exact Hcalls.
      * unfold sameButEvents; cbn. rewrite Htab. now repeat split.
    + destruct (getModifierState e2 (key e2)); cbn.
      * now repeat split.
      * unfold sameButEvents; cbn. rewrite Htab. now repeat split.
Qed.

Lemma forEach_sameKeystroke (e1 e2 : KeyboardEvent)
    (l : list (list KeyBindingPress * Callback)) (k : nat) (st1 st2 : State) :
  sameKeystroke e1 e2 ->
  (forall j kb, l !! j = Some kb ->
     Spec.completes e1 (fst kb) (possibleMatches st1 !! (k + j)) = true ->
     snd kb e1 = snd kb e2) ->
  sameButEvents st1 st2 ->
  fst (forEach (trackBinding e1) k l st1) = fst (forEach (trackBinding e2) k l st2)
  /\ sameButEvents (snd (forEach (trackBinding e1) k l st1))
       (snd (forEach (trackBinding e2) k l st2)).
Proof.
  intros Hsame. revert k st1 st2.
  induction l as [|kb l IH]; intros k st1 st2 Hcb Hst; [now split|].
  rewrite !forEach_cons.
  destruct (trackBinding_sameKeystroke e1 e2 k kb st1 st2 Hsame) as [Hr Hst'];
    [|exact Hst|].
  { specialize (Hcb 0 kb eq_refl). now rewrite Nat.add_0_r in Hcb. }
  destruct (trackBinding_effect e1 k kb st1) as (new & [Hothers _ _ _ _ _] & _).
  destruct (trackBinding e1 k kb st1) as [[[]|v1] st1'],
           (trackBinding e2 k kb st2) as [[[]|v2] st2']; cbn [fst snd] in *;
    try discriminate.
  - apply IH; [|exact Hst'].
    intros j kb0 Hj. rewrite Hothers by lia.
    replace (S k + j) with (k + S j) by lia. now apply Hcb.
  - now split.
Qed.

Lemma rearm_sameButEvents (st1 st2 : State) :
  sameButEvents st1 st2 -> sameButEvents (rearm st1) (rearm st2).
Proof.
  intros (Htab & Ht & Hp & Hn & Hnow & Hcalls). unfold sameButEvents, Spec.rearm; cbn.
  rewrite Htab, Ht, Hp, Hn, Hnow, Hcalls. now repeat split.
Qed.

(** C7 (amended).  An event that is not a keyboard event, and, unless
    the option [allowRepeat] is true, a keyboard event that is a repeat,
    is discarded: the handler returns with the state as it was, so the
    table is unchanged, no callback is called and the timer is not
    touched.  When [allowRepeat] is true, a repeat is processed as the
    event with the same fields that is not a repeat, provided the
    callbacks of the bindings that the event completes, which receive the
    event, return or throw alike on the two: same outcome, same table,
    same timer, and the same callbacks called in the same order. *)
Theorem C7_discarded_and_repeated_events :
  (forall st, handler OtherEvent st = (Normal tt, st))
  /\ (forall e st,
        allowRepeat options <> Some true -> repeat e = true ->
        handler (KeyboardEv e) st = (Normal tt, st))
  /\ (forall e st,
        allowRepeat options = Some true ->
        (forall j kb, keyBindings !! j = Some kb ->
           Spec.completes (withRepeat true e) (fst kb) (possibleMatches st !! j) = true ->
           snd kb (withRepeat true e) = snd kb (withRepeat false e)) ->
        fst (handler (KeyboardEv (withRepeat true e)) st)
        = fst (handler (KeyboardEv (withRepeat false e)) st)
        /\ sameButEvents (snd (handler (KeyboardEv (withRepeat true e)) st))
             (snd (handler (KeyboardEv (withRepeat false e)) st))).
Proof.
  split; [exact handler_other|]. split.
  - intros e st Hopt Hrep. apply handler_suppressed. unfold Spec.suppressed.
    rewrite Hrep. destruct (allowRepeat options) as [[|]|]; [congruence | | ]; reflexivity.
  - intros e st Hopt Hcb.
    rewrite !handler_run by (unfold Spec.suppressed; now rewrite Hopt).
    assert (Hsame : sameKeystroke (withRepeat true e) (withRepeat false e))
      by (now repeat split).
    assert (Hst : sameButEvents st st) by (now repeat split).
    destruct (forEach_sameKeystroke _ _ keyBindings 0 st st Hsame Hcb Hst) as [Hr Hst'].
    destruct (forEach (trackBinding (withRepeat true e)) 0 keyBindings st) as [[[]|v1] st1],
             (forEach (trackBinding (withRepeat false e)) 0 keyBindings st) as [[[]|v2] st2];
      cbn [fst snd] in *; try discriminate.
    + split; [reflexivity | now apply rearm_sameButEvents].
    + now split.
Qed.

End Tracker.

(** ** Runs of the handler on concrete bindings *)

Lemma yeet_callbacks_return (e : KeyboardEvent) (st : State) :
  forall j kb, keyBindings None yeet !! j = Some kb ->
    Spec.completes e (fst kb) (possibleMatches st !! j) = true -> snd kb e = None.
Proof.
  intros [|[|j]] kb Hj _; cbn in Hj; try discriminate; now injection Hj as <-.
Qed.

(** The first key of [y e e t], with the binding [y] beside it. *)
Lemma C2_witness :
  possibleMatches (snd (handler None yeet defaults (KeyboardEv (stroke "y")) initial)) !! 0
  = Some [([], "e"); ([], "e"); ([], "t")]
  /\ possibleMatches (snd (handler None yeet defaults (KeyboardEv (stroke "y")) initial)) !! 1
     = None
  /\ calls (snd (handler None yeet defaults (KeyboardEv (stroke "y")) initial))
     = [(1, stroke "y")].
Proof.
  destruct (C2_tracker_updates_every_binding None yeet defaults (stroke "y") initial
              (reachable_initial _ _ _) eq_refl (yeet_callbacks_return _ _))
    as (_ & Hprog & Hcalls).
  split; [|split].
  - exact (Hprog 0 _ eq_refl).
  - exact (Hprog 1 _ eq_refl).
  - exact Hcalls.
Defined.

(** C2, as stated, fails when a callback throws.  With the binding [a],
    whose callback throws, registered before the binding [a b], the event
    of [a] matches the first press of [a b], whose entry should become the
    press of [b]; the handler throws at the first binding and the second
    binding keeps no entry. *)
Lemma C2_counterexample_throwing_callback :
  fst (handler None throwsFirst defaults (KeyboardEv (stroke "a")) initial) = Throw "boom"
  /\ keyBindings None throwsFirst !! 1 = Some ([([], "a"); ([], "b")], returns)
  /\ Spec.progress (stroke "a") [([], "a"); ([], "b")] (possibleMatches initial !! 1)
     = Some [([], "b")]
  /\ possibleMatches (snd (handler None throwsFirst defaults (KeyboardEv (stroke "a")) initial))
       !! 1
     = None.
Proof. repeat split. Qed.

(** The first key of [y e e t] schedules the first timeout, due after
    1000 milliseconds. *)
Lemma C4_witness :
  timer (snd (handler None yeet defaults (KeyboardEv (stroke "y")) initial)) = Some 1
  /\ pending (snd (handler None yeet defaults (KeyboardEv (stroke "y")) initial))
     = [(1, 1000%N)]
  /\ possibleMatches
       (elapse 1000 (snd (handler None yeet defaults (KeyboardEv (stroke "y")) initial)))
     = ∅.
Proof.
  destruct (C4_timer_rearmed_on_completed_event None yeet defaults (stroke "y") initial
              (reachable_initial _ _ _) eq_refl (yeet_callbacks_return _ _) eq_refl)
    as (Ht & Hp & _ & _ & _ & Hdue).
  split; [exact Ht|]. split; [exact Hp|].
  destruct (Hdue 1000%N) as (Hempty & _); [|exact Hempty].
  unfold timeoutOf, DEFAULT_TIMEOUT. cbn. lia.
Defined.

(** C4, as stated, fails when a callback throws.  With the binding [a b]
    registered before the binding [a], whose callback throws, the event of
    [a] advances the first binding and leaves no timeout scheduled; five
    seconds later the entry is still there, and the event of [b] then
    completes the sequence from where it was left. *)
Lemma C4_counterexample_no_timer_after_throw :
  pending (step None throwsLast defaults (Dispatch (KeyboardEv (stroke "a"))) initial) = []
  /\ possibleMatches
       (run None throwsLast defaults
          [Dispatch (KeyboardEv (stroke "a")); Elapse 5000] initial) !! 0
     = Some [([], "b")]
  /\ calls
       (run None throwsLast defaults
          [Dispatch (KeyboardEv (stroke "a")); Elapse 5000; Dispatch (KeyboardEv (stroke "b"))]
          initial)
     = [(1, stroke "a"); (0, stroke "b")].
Proof. repeat split. Qed.

(** After [y] and [e] the entry of [y e e t] is its last two presses. *)
Lemma C6_witness :
  reachable None yeet defaults
    (run None yeet defaults
       [Dispatch (KeyboardEv (stroke "y")); Dispatch (KeyboardEv (stroke "e"))] initial)
  /\ possibleMatches
       (run None yeet defaults
          [Dispatch (KeyboardEv (stroke "y")); Dispatch (KeyboardEv (stroke "e"))] initial) !! 0
     = Some [([], "e"); ([], "t")]
  /\ exists text callback pre,
       yeet !! 0 = Some (text, callback)
       /\ parseKeybinding None text = pre ++ [bare "e"; bare "t"]
       /\ pre <> [] /\ [bare "e"; bare "t"] <> [].
Proof.
  assert (Hreach : reachable None yeet defaults
            (run None yeet defaults
               [Dispatch (KeyboardEv (stroke "y")); Dispatch (KeyboardEv (stroke "e"))] initial))
    by (apply reachable_run; constructor).
  split; [exact Hreach|]. split; [reflexivity|].
  exact (proj1 (C6_entries_are_proper_suffixes None yeet defaults _ Hreach) 0
           [([], "e"); ([], "t")] eq_refl).
Defined.

(** A repeat of [y]: discarded by default, processed as the keydown
    itself when repeats are allowed. *)
Lemma C7_witness :
  handler None yeet defaults (KeyboardEv (withRepeat true (stroke "y"))) initial
  = (Normal tt, initial)
  /\ sameButEvents
       (snd (handler None yeet repeats (KeyboardEv (withRepeat true (stroke "y"))) initial))
       (snd (handler None yeet repeats (KeyboardEv (withRepeat false (stroke "y"))) initial)).
Proof.
  split.
  - apply (proj1 (proj2 (C7_discarded_and_repeated_events None yeet defaults)));
      [discriminate | reflexivity].
  - apply (proj2 (proj2 (C7_discarded_and_repeated_events None yeet repeats)));
      [reflexivity|].
    intros [|[|j]] kb Hj _; cbn in Hj; try discriminate; now injection Hj as <-.
Defined.

(** C7, as stated, fails when a callback tells a repeat from the first
    keydown.  With repeats allowed and the binding [a], whose callback
    throws on a repeat only, registered before the binding [a b], the
    repeat of [a] makes the handler throw, leaves [a b] without an entry
    and schedules no timeout, while the keydown of [a] itself returns,
    gives [a b] the entry of [b] and schedules the timeout. *)
Lemma C7_counterexample_callback_reads_repeat :
  fst (handler None repeatSensitive repeats
         (KeyboardEv (withRepeat true (stroke "a"))) initial) = Throw "boom"
  /\ fst (handler None repeatSensitive repeats
            (KeyboardEv (withRepeat false (stroke "a"))) initial) = Normal tt
  /\ possibleMatches
       (snd (handler None repeatSensitive repeats
               (KeyboardEv (withRepeat true (stroke "a"))) initial)) !! 1
     = None
  /\ possibleMatches
       (snd (handler None repeatSensitive repeats
               (KeyboardEv (withRepeat false (stroke "a"))) initial)) !! 1
     = Some [bare "b"]
  /\ pending (snd (handler None repeatSensitive repeats
                     (KeyboardEv (withRepeat true (stroke "a"))) initial)) = []
  /\ pending (snd (handler None repeatSensitive repeats
                     (KeyboardEv (withRepeat false (stroke "a"))) initial))
     = [(1, 1000%N)].
Proof. repeat split. Qed.

(** The binding [a], whose callback throws, registered after [a b]. *)
Lemma C8_witness :
  fst (handler None throwsLast defaults (KeyboardEv (stroke "a")) initial) = Throw "boom"
  /\ possibleMatches
       (snd (handler None throwsLast defaults (KeyboardEv (stroke "a")) initial)) !! 1
     = None
  /\ pending (snd (handler None throwsLast defaults (KeyboardEv (stroke "a")) initial)) = [].
Proof.
  destruct (C8_throwing_callback_stops_the_handler None throwsLast defaults
              (stroke "a") initial 1 ([([], "a")], throws) "boom"
              (reachable_initial _ _ _) eq_refl eq_refl eq_refl eq_refl)
    as (Hthrow & Hentry & _ & _ & _ & Hp & _).
  - intros [|j] kb' Hlt Hj Hc; [|lia]. cbn in Hj. now injection Hj as <-.
  - split; [exact Hthrow|]. split; [exact Hentry | exact Hp].
Defined.

(** ** Subscribing and unsubscribing *)

Section Subscription.
Variable navigator : option Navigator.
Variable keyBindingMap : KeyBindingMap.
Variable options : KeyBindingOptions.

Local Abbreviation eventOf := (eventOf options).
Local Abbreviation unsubscribe := (unsubscribe options).
Local Abbreviation tinykeys := (tinykeys options).
Local Abbreviation dispatchEvent := (dispatchEvent navigator keyBindingMap options).
Local Abbreviation pageStep := (pageStep navigator keyBindingMap options).
Local Abbreviation pageRun := (pageRun navigator keyBindingMap options).
Local Abbreviation subscribed := (subscribed navigator keyBindingMap options).
Local Abbreviation registeredOnce := (registeredOnce options).

Lemma sameEntry_refl (x : string * Listener) : sameEntry x x = true.
Proof.
  destruct x as [type [|id]]; unfold sameEntry; cbn; rewrite String.eqb_refl;
    [reflexivity | apply Nat.eqb_refl].
Qed.

Lemma dispatchEvent_listeners (type : string) (e : Event) (p : Page) :
  listeners (dispatchEvent type e p) = listeners p.
Proof.
  unfold Tinykeys.dispatchEvent.
  generalize (listeners p) at 1. intros ls. revert p.
  induction ls as [|l ls IH]; intros p; [reflexivity|].
  cbn [fold_left]. rewrite IH.
  destruct (String.eqb (fst l) type); [|reflexivity].
  now destruct (snd l).
Qed.

Lemma dispatchEvent_unregistered (type : string) (e : Event) (p : Page) :
  unregistered p -> dispatchEvent type e p = p.
Proof.
  unfold unregistered, Tinykeys.dispatchEvent.
  generalize (listeners p). intros ls Hno.
  induction ls as [|l ls IH]; [reflexivity|].
  cbn [fold_left].
  assert (Hl : (if String.eqb (fst l) type
                then match snd l with
                     | onKeyEvent =>
                         {| listeners := listeners p;
                            inner := snd (handler navigator keyBindingMap
                                            (handlerOptions options) e (inner p)) |}
                     | foreign _ => p
                     end
                else p) = p).
  { destruct (String.eqb (fst l) type); [|reflexivity].
    destruct l as [ty [|id]]; [|reflexivity].
    exfalso. apply (Hno ty). now left. }
  rewrite Hl. apply IH. intros ty Hin. apply (Hno ty). now right.
Qed.

Lemma unsubscribe_unregistered (p : Page) :
  registeredOnce p -> unregistered (unsubscribe p).
Proof.
  intros Hreg type Hin. unfold Tinykeys.unsubscribe, removeEventListener in Hin.
  cbn [listeners] in Hin. apply filter_In in Hin as [Hin Hkeep].
  rewrite (Hreg type Hin), sameEntry_refl in Hkeep. discriminate.
Qed.

Lemma filter_idempotent {A} (f : A -> bool) (l : list A) :
  List.filter f (List.filter f l) = List.filter f l.
Proof.
  induction l as [|x l IH]; [reflexivity|]. cbn.
  destruct (f x) eqn:Hx; [|exact IH]. cbn. now rewrite Hx, IH.
Qed.

Lemma unsubscribe_idempotent (p : Page) : unsubscribe (unsubscribe p) = unsubscribe p.
Proof.
  unfold Tinykeys.unsubscribe, removeEventListener. cbn [listeners inner].
  now rewrite filter_idempotent.
Qed.

Lemma subscribed_registeredOnce (target : list (string * nat)) (p : Page) :
  subscribed target p -> registeredOnce p.
Proof.
  induction 1 as [|p s _ IH].
  - intros type Hin. unfold Tinykeys.tinykeys, addEventListener in Hin.
    cbn [fst listeners] in Hin.
    assert (Hforeign : ~ In (type, onKeyEvent)
                         (map (fun l : string * nat => (fst l, foreign (snd l))) target)).
    { intros H. apply in_map_iff in H as (l & Hl & _). discriminate. }
    destruct (existsb _ _); [contradiction|].
    apply in_app_iff in Hin as [Hin|[Hin|[]]]; [contradiction|]. congruence.
  - intros type Hin. destruct s as [ty e|dt|]; cbn [Tinykeys.pageStep] in Hin.
    + rewrite dispatchEvent_listeners in Hin. now apply IH.
    + now apply IH.
    + unfold Tinykeys.unsubscribe, removeEventListener in Hin.
      cbn [listeners] in Hin. apply filter_In in Hin as [Hin _]. now apply IH.
Qed.

Lemma elapse_calls (dt : N) (st : State) : calls (elapse dt st) = calls st.
Proof. reflexivity. Qed.

Lemma elapse_table (dt : N) (st : State) :
  possibleMatches (elapse dt st) = possibleMatches st
  \/ possibleMatches (elapse dt st) = ∅.
Proof.
  unfold elapse; cbn [possibleMatches].
  destruct (List.filter _ (pending st)); [now left | now right].
Qed.

(** After the handler is unregistered nothing reaches it: no callback is
    called, and the table changes only by a timeout that clears it. *)
Lemma unregistered_run (steps : list PageStep) (p : Page) :
  unregistered p ->
  unregistered (pageRun steps p)
  /\ calls (inner (pageRun steps p)) = calls (inner p)
  /\ (possibleMatches (inner (pageRun steps p)) = possibleMatches (inner p)
      \/ possibleMatches (inner (pageRun steps p)) = ∅).
Proof.
  revert p. induction steps as [|s steps IH]; intros p Hno.
  - split; [exact Hno|]. split; [reflexivity | now left].
  - change (pageRun (s :: steps) p) with (pageRun steps (pageStep s p)).
    assert (Hstep : unregistered (pageStep s p)
                    /\ calls (inner (pageStep s p)) = calls (inner p)
                    /\ (possibleMatches (inner (pageStep s p)) = possibleMatches (inner p)
                        \/ possibleMatches (inner (pageStep s p)) = ∅)).
    { destruct s as [ty e|dt|]; cbn [Tinykeys.pageStep].
      - rewrite (dispatchEvent_unregistered ty e p Hno).
        split; [exact Hno|]. split; [reflexivity | now left].
      - split; [exact Hno|]. split; [reflexivity|]. apply elapse_table.
      - split; [|split; [reflexivity | now left]].
        intros type Hin. unfold Tinykeys.unsubscribe, removeEventListener in Hin.
        cbn [listeners] in Hin. apply filter_In in Hin as [Hin _]. now apply (Hno type). }
    destruct Hstep as (Hno' & Hcalls & Htab).
    destruct (IH (pageStep s p) Hno') as (Hno'' & Hcalls' & Htab').
    split; [exact Hno''|]. split; [congruence|].
    destruct Htab' as [Htab'|Htab']; [|now right].
    destruct Htab as [Htab|Htab]; [left | right]; congruence.
Qed.

(** C5 (amended).  The function that [tinykeys] returns removes the
    handler from the target and calling it again changes nothing.  It
    does nothing else: the table and the timeout that is pending are as
    they were.  Events delivered to the target afterwards do not reach
    the handler, so that, whatever happens next, no callback is called
    and the table is not advanced; it changes only if a timeout that was
    pending runs and clears it. *)
Theorem C5_unsubscribe_removes_the_listener (target : list (string * nat)) (p : Page) :
  subscribed target p ->
  (forall type, ~ In (type, onKeyEvent) (listeners (unsubscribe p)))
  /\ unsubscribe (unsubscribe p) = unsubscribe p
  /\ inner (unsubscribe p) = inner p
  /\ (forall type e, dispatchEvent type e (unsubscribe p) = unsubscribe p)
  /\ (forall steps,
        calls (inner (pageRun steps (unsubscribe p))) = calls (inner p)
        /\ (possibleMatches (inner (pageRun steps (unsubscribe p)))
            = possibleMatches (inner p)
            \/ possibleMatches (inner (pageRun steps (unsubscribe p))) = ∅)).
Proof.
  intros Hsub.
  pose proof (unsubscribe_unregistered p (subscribed_registeredOnce target p Hsub)) as Hno.
  split; [exact Hno|]. split; [apply unsubscribe_idempotent|].
  split; [reflexivity|]. split.
  - intros type e. now apply dispatchEvent_unregistered.
  - intros steps. destruct (unregistered_run steps (unsubscribe p) Hno) as (_ & Hc & Ht).
    split; [exact Hc | exact Ht].
Qed.

End Subscription.

(** After unsubscribing, the keydown of [b] calls nothing. *)
Lemma C5_witness :
  subscribed None ab keydownOptions [] afterA
  /\ listeners (unsubscribe keydownOptions afterA) = []
  /\ calls (inner (pageRun None ab keydownOptions
                     [Deliver "keydown" (KeyboardEv (stroke "b"))]
                     (unsubscribe keydownOptions afterA))) = [].
Proof.
  assert (Hsub : subscribed None ab keydownOptions [] afterA)
    by (apply subscribed_step, subscribed_start).
  split; [exact Hsub|]. split; [reflexivity|].
  destruct (C5_unsubscribe_removes_the_listener None ab keydownOptions [] afterA Hsub)
    as (_ & _ & _ & _ & Hrun).
  exact (proj1 (Hrun [Deliver "keydown" (KeyboardEv (stroke "b"))])).
Defined.

(** C5, as stated, fails: teardown does not cancel the timeout.  After
    the keydown of [a] the binding [a b] has an entry and a timeout is
    pending; unsubscribing leaves the timeout pending, and when it runs,
    one second later, it clears the table. *)
Lemma C5_counterexample_timer_survives_teardown :
  possibleMatches (inner (unsubscribe keydownOptions afterA)) !! 0 = Some [bare "b"]
  /\ pending (inner (unsubscribe keydownOptions afterA)) = [(1, 1000%N)]
  /\ possibleMatches
       (inner (pageStep None ab keydownOptions (Wait 1000)
                 (unsubscribe keydownOptions afterA))) !! 0
     = None.
Proof. repeat split. Qed.

(** ** The scenarios of the specification *)

(** The keys [y], [e], [e] advance the binding [y e e t] to its last
    press; [t] then calls the callback once and clears the progress. *)
Example yeet_completes :
  possibleMatches
    (run None yeetOnly defaults
       [Dispatch (KeyboardEv (stroke "y")); Dispatch (KeyboardEv (stroke "e"));
        Dispatch (KeyboardEv (stroke "e"))] initial) !! 0
  = Some [bare "t"]
  /\ calls
       (run None yeetOnly defaults
          [Dispatch (KeyboardEv (stroke "y")); Dispatch (KeyboardEv (stroke "e"));
           Dispatch (KeyboardEv (stroke "e")); Dispatch (KeyboardEv (stroke "t"))] initial)
     = [(0, stroke "t")]
  /\ possibleMatches
       (run None yeetOnly defaults
          [Dispatch (KeyboardEv (stroke "y")); Dispatch (KeyboardEv (stroke "e"));
           Dispatch (KeyboardEv (stroke "e")); Dispatch (KeyboardEv (stroke "t"))] initial) !! 0
     = None.
Proof. repeat split. Qed.

(** After [y], [e], [e] and a pause of the length of the timeout, [t]
    alone does not call the callback. *)
Example yeet_abandoned :
  calls
    (run None yeetOnly defaults
       [Dispatch (KeyboardEv (stroke "y")); Dispatch (KeyboardEv (stroke "e"));
        Dispatch (KeyboardEv (stroke "e")); Elapse 1000;
        Dispatch (KeyboardEv (stroke "t"))] initial)
  = [].
Proof. reflexivity. Qed.

(** A keydown of a modifier between two presses does not break the
    sequence; a keydown of another key does. *)
Example modifier_keydown_keeps_progress :
  possibleMatches
    (run None yeetOnly defaults
       [Dispatch (KeyboardEv (stroke "y"));
        Dispatch (KeyboardEv (keydown "Shift" "ShiftLeft" ["Shift"]))] initial) !! 0
  = Some [bare "e"; bare "e"; bare "t"]
  /\ possibleMatches
       (run None yeetOnly defaults
          [Dispatch (KeyboardEv (stroke "y")); Dispatch (KeyboardEv (stroke "x"))] initial) !! 0
     = None.
Proof. repeat split. Qed.

(** Two bindings complete on one event, in the order of the bindings. *)
Example two_bindings_complete :
  calls (run None twice defaults [Dispatch (KeyboardEv (stroke "a"))] initial)
  = [(0, stroke "a"); (1, stroke "a")].
Proof. reflexivity. Qed.

(** [Shift+d] matches [d] with Shift held, and not with Control held too. *)
Example shift_d :
  parseKeybinding None "Shift+d" = [shiftD]
  /\ match_ (keydown "D" "KeyD" ["Shift"]) shiftD = true
  /\ match_ (keydown "D" "KeyD" ["Shift"; "Control"]) shiftD = false.
Proof. repeat split. Qed.

(** [$mod+d] asks for Meta on an Apple platform and for Control elsewhere. *)
Example mod_d :
  parseKeybinding (Some {| platform := "MacIntel" |}) "$mod+d" = [(["Meta"], "d")]
  /\ parseKeybinding (Some {| platform := "Win32" |}) "$mod+d" = [(["Control"], "d")]
  /\ parseKeybinding None "$mod+d" = [(["Control"], "d")].
Proof. repeat split. Qed.

(** Where [split(/\b\+/)] cuts. *)
Example split_at_word_boundary :
  splitWordPlus None "a+b+c" = ["a"; "b"; "c"]
  /\ splitWordPlus None "a++" = ["a"; "+"]
  /\ splitWordPlus None "a++b" = ["a"; "+b"]
  /\ splitWordPlus None "+a" = ["+a"]
  /\ splitWordPlus None "a+" = ["a"; ""]
  /\ splitWordPlus None "$+a" = ["$+a"]
  /\ splitWordPlus None "" = [""].
Proof. repeat split. Qed.

(** A key that is a literal [+] is not cut off from its modifier. *)
Example shift_plus :
  parseKeybinding None "Shift++" = [(["Shift"], "+")]
  /\ parseKeybinding None "+" = [bare "+"]
  /\ parseKeybinding None "Control+Shift+k" = [(["Control"; "Shift"], "k")].
Proof. repeat split. Qed.

(** * Further properties *)

(** ** The parser, from pieces to presses *)

Lemma string_app_cons (c : ascii) (a b : string) :
  (String c a ++ b)%string = String c (a ++ b)%string.
Proof. reflexivity. Qed.

Lemma splitWordPlus_after_plus (s : string) :
  splitWordPlus (Some "+"%char) s = splitWordPlus None s.
Proof. destruct s as [|c r]; reflexivity. Qed.

Lemma splitWordPlus_whole (prev : option ascii) (s : string) :
  hasSeparator prev s = false -> splitWordPlus prev s = [s].
Proof.
  revert prev. induction s as [|c r IH]; intros prev Hs; [reflexivity|].
  cbn [hasSeparator] in Hs. apply orb_false_iff in Hs as [Hc Hr].
  cbn [splitWordPlus]. rewrite Hc, (IH _ Hr). reflexivity.
Qed.

Lemma joinWith_cons (sep x y : string) (rest : list string) :
  joinWith sep (x :: y :: rest) = (x ++ sep ++ joinWith sep (y :: rest))%string.
Proof. reflexivity. Qed.

Lemma splitWordPlus_joined (segs : list string) (k : string) :
  Forall (fun seg => endsInWord seg = true) segs ->
  Forall (fun seg => hasSeparator None seg = false) (segs ++ [k]) ->
  splitWordPlus None (joinWith "+" (segs ++ [k])) = segs ++ [k].
Proof.
  induction segs as [|seg segs IH]; intros Hend Hsep.
  - cbn. apply splitWordPlus_whole. now inversion Hsep.
  - inversion Hend as [|? ? Hseg Hend']; subst.
    inversion Hsep as [|? ? Hs Hsep']; subst.
    destruct (segs ++ [k]) as [|y rest] eqn:Hrest; [now destruct segs|].
    cbn [app]. rewrite Hrest, joinWith_cons.
    change ("+" ++ joinWith "+" (y :: rest))%string
      with (String "+" (joinWith "+" (y :: rest))).
    rewrite (splitWordPlus_app None seg _ Hseg), splitWordPlus_after_plus.
    rewrite (splitWordPlus_whole None seg Hs), (IH Hend' Hsep'). reflexivity.
Qed.

(** X3.  [parsePress] undoes the joining of pieces with [+]: when every
    modifier piece ends in a word character and no piece contains a [+]
    after a word character, the token made of the pieces parses to those
    modifiers, alias resolved, and that key. *)
Theorem X3_parsePress_of_pieces (navigator : option Navigator)
    (segs : list string) (k : string) :
  Forall (fun seg => endsInWord seg = true) segs ->
  Forall (fun seg => hasSeparator None seg = false) (segs ++ [k]) ->
  parsePress navigator (joinWith "+" (segs ++ [k]))
  = (map (resolveAlias navigator) segs, k).
Proof.
  intros Hend Hsep. unfold parsePress, pop.
  rewrite (splitWordPlus_joined segs k Hend Hsep).
  now rewrite last_snoc, List.removelast_last.
Qed.

(** The pieces [Control], [Shift] and the key [+]. *)
Lemma X3_witness :
  parsePress None "Control+Shift++" = (["Control"; "Shift"], "+").
Proof.
  apply (X3_parsePress_of_pieces None ["Control"; "Shift"] "+");
    repeat constructor.
Defined.

Lemma splitSpace_whole (t : string) :
  hasChar " " t = false -> splitSpace t = [t].
Proof.
  induction t as [|c r IH]; intros Ht; [reflexivity|].
  cbn [hasChar] in Ht. apply orb_false_iff in Ht as [Hc Hr].
  cbn [splitSpace]. now rewrite Hc, (IH Hr).
Qed.

Lemma splitSpace_app (a b : string) :
  hasChar " " a = false ->
  splitSpace (a ++ String " " b)%string = a :: splitSpace b.
Proof.
  induction a as [|c r IH]; intros Ha; [reflexivity|].
  cbn [hasChar] in Ha. apply orb_false_iff in Ha as [Hc Hr].
  rewrite string_app_cons. cbn [splitSpace]. now rewrite Hc, (IH Hr).
Qed.

Lemma splitSpace_joined (toks : list string) :
  toks <> [] ->
  Forall (fun tok => hasChar " " tok = false) toks ->
  splitSpace (joinWith " " toks) = toks.
Proof.
  induction toks as [|tok toks IH]; intros Hne Hall; [congruence|].
  inversion Hall as [|? ? Htok Hall']; subst.
  destruct toks as [|y rest]; [now apply splitSpace_whole|].
  rewrite joinWith_cons.
  change (" " ++ joinWith " " (y :: rest))%string
    with (String " " (joinWith " " (y :: rest))).
  rewrite (splitSpace_app tok _ Htok), IH; [reflexivity | discriminate | assumption].
Qed.

Lemma trimStart_white (before s : string) :
  allWhiteSpace before = true -> trimStart (before ++ s)%string = trimStart s.
Proof.
  induction before as [|c r IH]; intros Hb; [reflexivity|].
  cbn [allWhiteSpace] in Hb. apply andb_true_iff in Hb as [Hc Hr].
  rewrite string_app_cons. cbn [trimStart]. now rewrite Hc, (IH Hr).
Qed.

Lemma trimStart_all_white (s : string) : allWhiteSpace s = true -> trimStart s = "".
Proof.
  induction s as [|c r IH]; intros Hs; [reflexivity|].
  cbn [allWhiteSpace] in Hs. apply andb_true_iff in Hs as [Hc Hr].
  cbn [trimStart]. now rewrite Hc, (IH Hr).
Qed.

Lemma trimEnd_all_white (s : string) : allWhiteSpace s = true -> trimEnd s = "".
Proof.
  induction s as [|c r IH]; intros Hs; [reflexivity|].
  cbn [allWhiteSpace] in Hs. apply andb_true_iff in Hs as [Hc Hr].
  cbn [trimEnd]. now rewrite (IH Hr), Hc.
Qed.

Lemma trimEnd_white (s after : string) :
  allWhiteSpace after = true -> trimEnd (s ++ after)%string = trimEnd s.
Proof.
  intros Ha. induction s as [|c r IH]; [now apply trimEnd_all_white|].
  rewrite string_app_cons. cbn [trimEnd]. now rewrite IH.
Qed.

Lemma trimEnd_id (s : string) :
  from_option isWhiteSpace false (lastChar s) = false -> trimEnd s = s.
Proof.
  induction s as [|c r IH]; intros Hs; [reflexivity|].
  cbn [trimEnd]. destruct r as [|d r'].
  - cbn in Hs |- *. now rewrite Hs.
  - rewrite (IH Hs). reflexivity.
Qed.

Lemma trim_between (before s after : string) :
  allWhiteSpace before = true ->
  allWhiteSpace after = true ->
  from_option isWhiteSpace false (firstChar s) = false ->
  from_option isWhiteSpace false (lastChar s) = false ->
  trim (before ++ s ++ after)%string = s.
Proof.
  intros Hb Ha Hfirst Hlast. unfold trim. rewrite (trimStart_white _ _ Hb).
  destruct s as [|c r].
  - change ("" ++ after)%string with after. now rewrite (trimStart_all_white _ Ha).
  - rewrite string_app_cons. cbn [trimStart]. cbn in Hfirst. rewrite Hfirst.
    rewrite <- string_app_cons, (trimEnd_white _ _ Ha). now apply trimEnd_id.
Qed.

(** X4.  [parseKeybinding] undoes the joining of tokens with single
    spaces and does not see white space around them: for tokens without a
    space whose joining neither begins nor ends with white space, a string
    made of white space, the joined tokens and white space parses to the
    presses of the tokens, one by one and in order. *)
Theorem X4_parseKeybinding_of_tokens (navigator : option Navigator)
    (before after : string) (toks : list string) :
  toks <> [] ->
  Forall (fun tok => hasChar " " tok = false) toks ->
  allWhiteSpace before = true ->
  allWhiteSpace after = true ->
  from_option isWhiteSpace false (firstChar (joinWith " " toks)) = false ->
  from_option isWhiteSpace false (lastChar (joinWith " " toks)) = false ->
  parseKeybinding navigator (before ++ joinWith " " toks ++ after)%string
  = map (parsePress navigator) toks.
Proof.
  intros Hne Hall Hb Ha Hfirst Hlast. unfold parseKeybinding.
  now rewrite (trim_between _ _ _ Hb Ha Hfirst Hlast), (splitSpace_joined toks Hne Hall).
Qed.

(** The tokens [Control+k] and [Control+c] between a tab and a line end. *)
Lemma X4_witness :
  parseKeybinding None
    (String (ascii_of_nat 9) "Control+k Control+c" ++ String (ascii_of_nat 10) "")%string
  = [(["Control"], "k"); (["Control"], "c")].
Proof.
  apply (X4_parseKeybinding_of_tokens None (String (ascii_of_nat 9) "")
           (String (ascii_of_nat 10) "") ["Control+k"; "Control+c"]);
    try reflexivity; [discriminate | repeat constructor].
Defined.

Lemma hasChar_app (c : ascii) (a b : string) :
  hasChar c (a ++ b)%string = hasChar c a || hasChar c b.
Proof.
  induction a as [|d r IH]; [reflexivity|].
  rewrite string_app_cons. cbn [hasChar]. now rewrite IH, orb_assoc.
Qed.

Lemma joinWith_hasChar (c : ascii) (sep : string) (l : list string) :
  hasChar c (joinWith sep l) = false -> Forall (fun x => hasChar c x = false) l.
Proof.
  induction l as [|x l IH]; intros Hj; [constructor|].
  destruct l as [|y rest]; [now repeat constructor|].
  rewrite joinWith_cons, !hasChar_app in Hj.
  apply orb_false_iff in Hj as [Hx Hj]. apply orb_false_iff in Hj as [_ Hj].
  constructor; [exact Hx | now apply IH].
Qed.

Lemma resolveAlias_wellformed (navigator : option Navigator) (m : string) :
  endsInWord m = true -> hasChar " " m = false ->
  endsInWord (resolveAlias navigator m) = true
  /\ hasChar " " (resolveAlias navigator m) = false.
Proof.
  intros Hend Hsp. unfold resolveAlias. destruct (String.eqb m "$mod"); [|now split].
  destruct (MOD_cases navigator) as [-> | ->]; now split.
Qed.

(** X5.  What the parser never returns: a modifier of a parsed press is
    never empty, ends in a word character and contains no space; the key
    contains no space and no [+] that follows a word character. *)
Theorem X5_parsed_presses_are_well_formed (navigator : option Navigator)
    (str : string) (press : KeyBindingPress) :
  In press (parseKeybinding navigator str) ->
  Forall (fun m => m <> "" /\ endsInWord m = true /\ hasChar " " m = false) (fst press)
  /\ hasChar " " (snd press) = false
  /\ hasSeparator None (snd press) = false.
Proof.
  unfold parseKeybinding. intros Hin. apply in_map_iff in Hin as (tok & <- & Htok).
  pose proof (splitSpace_no_space (trim str)) as Hall.
  rewrite List.Forall_forall in Hall. specialize (Hall tok Htok).
  destruct (parsePress_pieces navigator tok) as (segs & Hjoin & Hend & Hsep & Hmods).
  rewrite <- Hjoin in Hall. apply joinWith_hasChar in Hall.
  apply Forall_app in Hall as [Hsegs Hkey]. apply Forall_app in Hsep as [_ Hsepk].
  split; [|split; [now inversion Hkey | now inversion Hsepk]].
  rewrite Hmods. clear Hmods Hjoin.
  induction Hend as [|seg segs Hseg _ IH]; [constructor|].
  inversion Hsegs as [|? ? Hsp Hsegs']; subst. cbn [map].
  constructor; [|now apply IH].
  destruct (resolveAlias_wellformed navigator seg Hseg Hsp) as [He Hs].
  split; [now apply endsInWord_nonempty | now split].
Qed.

(** The press of [Control+Shift+k]. *)
Lemma X5_witness :
  In (["Control"; "Shift"], "k") (parseKeybinding None "Control+Shift+k")
  /\ hasChar " " "k" = false.
Proof.
  assert (Hin : In (["Control"; "Shift"], "k") (parseKeybinding None "Control+Shift+k"))
    by (left; reflexivity).
  split; [exact Hin|].
  exact (proj1 (proj2 (X5_parsed_presses_are_well_formed None _ _ Hin))).
Defined.

(** ** The platform alias *)

Lemma prefix_spec (a s : string) :
  String.prefix a s = true <-> exists after, s = (a ++ after)%string.
Proof.
  revert s. induction a as [|c a IH]; intros s.
  - split; [intros _; now exists s | destruct s; reflexivity].
  - destruct s as [|d s]; cbn [String.prefix].
    + split; [discriminate | intros (after & H); discriminate].
    + destruct (ascii_dec c d) as [->|Hcd].
      * rewrite IH. split; intros (after & H); exists after.
        -- now rewrite string_app_cons, <- H.
        -- rewrite string_app_cons in H. now injection H.
      * split; [discriminate|]. intros (after & H).
        rewrite string_app_cons in H. injection H as H1 _. congruence.
Qed.

Lemma includes_spec (needle s : string) :
  includes needle s = true
  <-> exists before after, s = (before ++ needle ++ after)%string.
Proof.
  induction s as [|c s IH]; cbn [includes]; rewrite orb_true_iff, prefix_spec.
  - split.
    + intros [(after & H)|H]; [|discriminate]. now exists "", after.
    + intros (before & after & H). left.
      destruct before as [|d before]; [now exists after | discriminate].
  - rewrite IH. split.
    + intros [(after & H)|(before & after & H)].
      * now exists "", after.
      * exists (String c before), after. now rewrite string_app_cons, <- H.
    + intros (before & after & H). destruct before as [|d before].
      * left. now exists after.
      * right. rewrite string_app_cons in H. injection H as _ H. now exists before, after.
Qed.

(** X2.  The alias stands for Meta exactly when there is a [navigator]
    whose platform contains [Mac], [iPod], [iPhone] or [iPad], and for
    Control in every other case, also when there is no [navigator]. *)
Theorem X2_MOD_is_Meta_on_apple_platforms (navigator : option Navigator) :
  (MOD navigator = "Meta" <-> applePlatform navigator)
  /\ (MOD navigator = "Control" <-> ~ applePlatform navigator).
Proof.
  assert (Happle : forall n, isApple n = true <-> applePlatform (Some n)).
  { intros n. unfold isApple, applePlatform. rewrite existsb_exists. split.
    - intros (lit & Hin & Hinc). apply includes_spec in Hinc as (before & after & H).
      now exists n, lit, before, after.
    - intros (n' & lit & before & after & [= <-] & Hin & H).
      exists lit. split; [exact Hin|]. apply includes_spec. now exists before, after. }
  unfold MOD. destruct navigator as [n|].
  - specialize (Happle n). destruct (isApple n).
    + assert (Ha : applePlatform (Some n)) by now apply Happle.
      split; split; intros H; try discriminate; try reflexivity; try exact Ha.
      contradiction.
    + assert (Hno : ~ applePlatform (Some n)).
      { intros H. apply Happle in H. discriminate. }
      split; split; intros H; try discriminate; try reflexivity; try exact Hno.
      contradiction.
  - assert (Hno : ~ applePlatform None).
    { intros (n & _ & _ & _ & H & _). discriminate. }
    split; split; intros H; try discriminate; try reflexivity; try exact Hno.
    contradiction.
Qed.

(** ** The matcher *)

(** X1.  On an event that has no [getModifierState] method, every
    modifier counts as inactive: a parsed press matches such an event
    exactly when the key agrees and the press has no modifiers. *)
Theorem X1_event_without_modifier_state (navigator : option Navigator)
    (str : string) (press : KeyBindingPress) (e : KeyboardEvent) :
  In press (parseKeybinding navigator str) ->
  getModifierStateMethod e = None ->
  (forall m, getModifierState e m = false)
  /\ (match_ e press = true <-> keyAgrees e press /\ fst press = []).
Proof.
  intros Hin Hnone.
  assert (Hoff : forall m, getModifierState e m = false)
    by (intros m; unfold getModifierState; now rewrite Hnone).
  split; [exact Hoff|].
  rewrite (match_iff e press (parsed_modifiers_nonempty _ _ _ Hin)).
  split.
  - intros (Hkey & Hheld & _). split; [exact Hkey|].
    destruct (fst press) as [|m mods] eqn:Hmods; [reflexivity|].
    specialize (Hheld m). rewrite Hmods, Hoff in Hheld.
    discriminate Hheld. now left.
  - intros (Hkey & Hmods). split; [exact Hkey|]. split.
    + intros m Hm. rewrite Hmods in Hm. destruct Hm.
    + intros m _ Hact. rewrite Hoff in Hact. discriminate.
Qed.

(** The bindings [F1] and [Shift+F1] on that event. *)
Lemma X1_witness :
  match_ f1 ([], "F1") = true /\ match_ f1 (["Shift"], "F1") = false.
Proof.
  split.
  - apply (proj2 (X1_event_without_modifier_state None "F1" ([], "F1") f1
                    (or_introl eq_refl) eq_refl)).
    split; [left|]; reflexivity.
  - apply not_true_iff_false. intros H.
    apply (proj2 (X1_event_without_modifier_state None "Shift+F1" (["Shift"], "F1") f1
                    (or_introl eq_refl) eq_refl)) in H as [_ H].
    discriminate.
Defined.

(** X6.  The modifiers of a press count as a set: two parsed presses with
    the same key whose modifier lists have the same members, in whatever
    order and however often, match the same events. *)
Theorem X6_modifier_order_is_irrelevant (navigator : option Navigator)
    (str str' : string) (press press' : KeyBindingPress) (e : KeyboardEvent) :
  In press (parseKeybinding navigator str) ->
  In press' (parseKeybinding navigator str') ->
  snd press = snd press' ->
  (forall m, In m (fst press) <-> In m (fst press')) ->
  match_ e press = match_ e press'.
Proof.
  intros Hin Hin' Hkey Hmods. apply eq_true_iff_eq.
  rewrite (match_iff e press (parsed_modifiers_nonempty _ _ _ Hin)).
  rewrite (match_iff e press' (parsed_modifiers_nonempty _ _ _ Hin')).
  unfold keyAgrees, modifiersHeld, noExtraModifier. rewrite Hkey.
  split; intros (Hk & Hheld & Hextra); (split; [exact Hk|]); split.
  - intros m Hm. now apply Hheld, Hmods.
  - intros m Hm Hact. destruct (Hextra m Hm Hact) as [H|H]; [left; now apply Hmods | now right].
  - intros m Hm. now apply Hheld, Hmods.
  - intros m Hm Hact. destruct (Hextra m Hm Hact) as [H|H]; [left; now apply Hmods | now right].
Qed.

(** [Control+Shift+k] and [Shift+Control+Shift+k]. *)
Lemma X6_witness :
  match_ (keydown "K" "KeyK" ["Shift"; "Control"]) (["Control"; "Shift"], "k")
  = match_ (keydown "K" "KeyK" ["Shift"; "Control"]) (["Shift"; "Control"; "Shift"], "k").
Proof.
  apply (X6_modifier_order_is_irrelevant None "Control+Shift+k" "Shift+Control+Shift+k").
  - left. reflexivity.
  - left. reflexivity.
  - reflexivity.
  - intros m. simpl. tauto.
Defined.

(** ** The handler *)

Section HandlerProperties.
Variable navigator : option Navigator.
Variable keyBindingMap : KeyBindingMap.
Variable options : KeyBindingHandlerOptions.

Local Abbreviation keyBindings := (keyBindings navigator keyBindingMap).
Local Abbreviation handler := (handler navigator keyBindingMap options).
Local Abbreviation step := (step navigator keyBindingMap options).
Local Abbreviation run := (run navigator keyBindingMap options).
Local Abbreviation reachable := (reachable navigator keyBindingMap options).
Local Abbreviation tableOk := (tableOk navigator keyBindingMap).
Local Abbreviation suppressed := (suppressed options).
Local Abbreviation rearm := (rearm options).
Local Abbreviation timeoutOf := (timeoutOf options).

(** A throw of the loop is the throw of a callback it called. *)
Lemma forEach_throw_source (e : KeyboardEvent)
    (l : list (list KeyBindingPress * Callback)) (k : nat) (st : State) (v : string) :
  (forall j kb, l !! j = Some kb ->
     Spec.remaining (fst kb) (possibleMatches st !! (k + j)) <> []) ->
  fst (forEach (trackBinding e) k l st) = Throw v ->
  exists j kb,
    l !! j = Some kb
    /\ Spec.completes e (fst kb) (possibleMatches st !! (k + j)) = true
    /\ snd kb e = Some v.
Proof.
  revert k st. induction l as [|kb l IH]; intros k st Hne Hthrow; [discriminate|].
  rewrite forEach_cons in Hthrow.
  destruct (trackBinding_step e k kb st) as (st1 & Heq & _ & Heff).
  { specialize (Hne 0 kb eq_refl). now rewrite Nat.add_0_r in Hne. }
  rewrite Heq in Hthrow. destruct Heff as [Ho1 _ _ _ _ _].
  assert (Hrest : fst (forEach (trackBinding e) (S k) l st1) = Throw v ->
                  exists j kb0, (kb :: l) !! j = Some kb0
                    /\ Spec.completes e (fst kb0) (possibleMatches st !! (k + j)) = true
                    /\ snd kb0 e = Some v).
  { intros H. destruct (IH (S k) st1) as (j & kb0 & Hj & Hc & Hv); [|exact H|].
    - intros j kb0 Hj. rewrite Ho1 by lia.
      replace (S k + j) with (k + S j) by lia. now apply Hne.
    - exists (S j), kb0. rewrite Ho1 in Hc by lia.
      replace (k + S j) with (S k + j) by lia. now repeat split. }
  destruct (Spec.completes e (fst kb) (possibleMatches st !! k)) eqn:Hc;
    [|now apply Hrest].
  destruct (snd kb e) as [v'|] eqn:Hv; [|now apply Hrest].
  cbn in Hthrow. injection Hthrow as ->.
  exists 0, kb. rewrite Nat.add_0_r. now repeat split.
Qed.

(** X7.  The handler never fails by itself: in every state it reaches,
    whatever event it receives, a value it throws was thrown by the
    callback of a binding that the event completes.  In particular no
    binding string, not even the empty one, makes the handler read a press
    that is not there. *)
Theorem X7_handler_throws_only_what_a_callback_throws (event : Event) (st : State)
    (v : string) :
  reachable st ->
  fst (handler event st) = Throw v ->
  exists e i text callback,
    event = KeyboardEv e
    /\ keyBindingMap !! i = Some (text, callback)
    /\ Spec.completes e (parseKeybinding navigator text) (possibleMatches st !! i) = true
    /\ callback e = Some v.
Proof.
  intros Hreach Hthrow. destruct (reachable_ok _ _ _ st Hreach) as [Hok _].
  destruct event as [e|]; [|discriminate].
  destruct (Spec.suppressed options e) eqn:Hs.
  { rewrite (handler_suppressed _ _ _ e st Hs) in Hthrow. discriminate. }
  rewrite (handler_run _ _ _ e st Hs) in Hthrow.
  destruct (forEach (trackBinding e) 0 keyBindings st) as [[[]|v'] st1] eqn:Hrun;
    [discriminate|].
  cbn in Hthrow. injection Hthrow as ->.
  destruct (forEach_throw_source e keyBindings 0 st v) as (j & kb & Hj & Hc & Hv).
  { intros j kb Hj. now apply (remaining_nonempty navigator keyBindingMap). }
  { now rewrite Hrun. }
  destruct (keyBindings_lookup _ _ j kb Hj) as (text & Hmap & Hparse).
  exists e, j, text, (snd kb). rewrite <- Hparse. now repeat split.
Qed.

(** *** The calls of one binding *)

Lemma callsOf_app (i : nat) (a b : list Call) :
  callsOf i (a ++ b) = callsOf i a ++ callsOf i b.
Proof. apply List.filter_app. Qed.

Lemma callsOf_none (i : nat) (cs : list Call) :
  (forall c, In c cs -> fst c <> i) -> callsOf i cs = [].
Proof.
  induction cs as [|c cs IH]; intros Hcs; [reflexivity|].
  cbn. destruct (Nat.eqb_spec (fst c) i) as [Heq|_].
  - exfalso. apply (Hcs c); [now left | exact Heq].
  - apply IH. intros c' Hc'. apply Hcs. now right.
Qed.

Lemma completed_from (e : KeyboardEvent) (table : gmap nat (list KeyBindingPress))
    (l : list (list KeyBindingPress * Callback)) (k : nat) (c : Call) :
  In c (Spec.completed e table k l) -> k <= fst c.
Proof.
  revert k. induction l as [|b l IH]; intros k Hin; [destruct Hin|].
  cbn [Spec.completed] in Hin. apply in_app_iff in Hin as [Hin|Hin].
  - destruct (Spec.completes e (fst b) (table !! k)); [|destruct Hin].
    destruct Hin as [<-|[]]. cbn. lia.
  - specialize (IH (S k) Hin). lia.
Qed.

(** Among the calls of an event, those of one binding: one call when the
    event completes the binding, none otherwise. *)
Lemma completed_callsOf (e : KeyboardEvent) (table : gmap nat (list KeyBindingPress))
    (l : list (list KeyBindingPress * Callback)) (k j : nat)
    (kb : list KeyBindingPress * Callback) :
  l !! j = Some kb ->
  callsOf (k + j) (Spec.completed e table k l)
  = if Spec.completes e (fst kb) (table !! (k + j)) then [(k + j, e)] else [].
Proof.
  revert k j. induction l as [|b l IH]; intros k j Hj; [discriminate|].
  cbn [Spec.completed]. rewrite callsOf_app. destruct j as [|j].
  - cbn in Hj. injection Hj as ->. rewrite Nat.add_0_r.
    rewrite (callsOf_none k (Spec.completed e table (S k) l)), app_nil_r.
    + destruct (Spec.completes e (fst kb) (table !! k)); [|reflexivity].
      cbn. now rewrite Nat.eqb_refl.
    + intros c Hc. apply completed_from in Hc. lia.
  - cbn in Hj. replace (k + S j) with (S k + j) by lia. rewrite (IH (S k) j Hj).
    rewrite callsOf_none; [reflexivity|].
    intros c Hc. destruct (Spec.completes e (fst b) (table !! k)); [|destruct Hc].
    destruct Hc as [<-|[]]. cbn. lia.
Qed.

(** X8.  A binding of a single press keeps no progress: in every state
    the handler reaches it has no entry, whatever was typed before and
    whatever the other bindings wait for.  On an event the handler
    processes (no callback throwing) its callback is called once if the
    event matches its press and not at all otherwise. *)
Theorem X8_single_press_binding_has_no_state (e : KeyboardEvent) (st : State)
    (i : nat) (kb : list KeyBindingPress * Callback) (p : KeyBindingPress) :
  reachable st ->
  keyBindings !! i = Some kb ->
  fst kb = [p] ->
  suppressed e = false ->
  (forall j kb', keyBindings !! j = Some kb' ->
     Spec.completes e (fst kb') (possibleMatches st !! j) = true -> snd kb' e = None) ->
  possibleMatches st !! i = None
  /\ possibleMatches (snd (handler (KeyboardEv e) st)) !! i = None
  /\ exists new,
       calls (snd (handler (KeyboardEv e) st)) = calls st ++ new
       /\ callsOf i new = if match_ e p then [(i, e)] else [].
Proof.
  intros Hreach Hkb Hp Hs Hcb. destruct (reachable_ok _ _ _ st Hreach) as [Hok _].
  assert (Hnone : possibleMatches st !! i = None).
  { destruct (possibleMatches st !! i) as [rem|] eqn:Hentry; [|reflexivity].
    destruct (Hok i rem Hentry) as (kb' & pre & Hkb' & Hpre & Hrem & Hseq).
    rewrite Hkb in Hkb'. injection Hkb' as <-. rewrite Hp in Hseq.
    destruct pre as [|a [|b pre]]; [congruence | | discriminate].
    destruct rem; [congruence | discriminate]. }
  destruct (handler_normal _ _ _ e st Hok Hs Hcb)
    as (st1 & _ & -> & Hprog & Hcalls & _).
  cbn [snd]. change (possibleMatches (rearm st1)) with (possibleMatches st1).
  change (calls (rearm st1)) with (calls st1).
  split; [exact Hnone|]. split.
  - rewrite (Hprog i kb Hkb), Hnone, Hp. cbn.
    destruct (match_ e p); [reflexivity|]. now destruct (getModifierState e (key e)).
  - exists (Spec.completed e (possibleMatches st) 0 keyBindings).
    split; [exact Hcalls|].
    rewrite (completed_callsOf e _ keyBindings 0 i kb Hkb). cbn [Nat.add].
    now rewrite Hnone, Hp.
Qed.

Lemma completed_nil (e : KeyboardEvent) (table : gmap nat (list KeyBindingPress))
    (l : list (list KeyBindingPress * Callback)) (k : nat) :
  (forall j kb, l !! j = Some kb ->
     Spec.completes e (fst kb) (table !! (k + j)) = false) ->
  Spec.completed e table k l = [].
Proof.
  revert k. induction l as [|b l IH]; intros k Hno; [reflexivity|].
  cbn [Spec.completed]. specialize (Hno 0 b eq_refl) as Hb.
  rewrite Nat.add_0_r in Hb. rewrite Hb. cbn. apply IH.
  intros j kb Hj. replace (S k + j) with (k + S j) by lia. now apply Hno.
Qed.

(** X13.  A processed keystroke that no binding is waiting for calls
    nothing; if its own key is an active modifier it leaves the whole
    table as it was, and if not it empties the table: every sequence in
    progress starts over. *)
Theorem X13_unmatched_keystroke (e : KeyboardEvent) (st : State) :
  reachable st ->
  suppressed e = false ->
  (forall j kb p rest, keyBindings !! j = Some kb ->
     Spec.remaining (fst kb) (possibleMatches st !! j) = p :: rest ->
     match_ e p = false) ->
  fst (handler (KeyboardEv e) st) = Normal tt
  /\ calls (snd (handler (KeyboardEv e) st)) = calls st
  /\ (getModifierState e (key e) = true ->
      possibleMatches (snd (handler (KeyboardEv e) st)) = possibleMatches st)
  /\ (getModifierState e (key e) = false ->
      possibleMatches (snd (handler (KeyboardEv e) st)) = ∅).
Proof.
  intros Hreach Hs Hno. destruct (reachable_ok _ _ _ st Hreach) as [Hok _].
  assert (Hnc : forall j kb, keyBindings !! j = Some kb ->
                  Spec.completes e (fst kb) (possibleMatches st !! j) = false).
  { intros j kb Hj. unfold Spec.completes.
    destruct (Spec.remaining (fst kb) (possibleMatches st !! j)) as [|p [|q rest]] eqn:Hrem;
      try reflexivity. now apply (Hno j kb p []). }
  destruct (handler_normal _ _ _ e st Hok Hs) as (st1 & Hrun & -> & Hprog & Hcalls & _).
  { intros j kb Hj Hc. pose proof (Hnc j kb Hj) as Hf.
    unfold Callback in *. congruence. }
  cbn [fst snd]. change (possibleMatches (rearm st1)) with (possibleMatches st1).
  change (calls (rearm st1)) with (calls st1).
  rewrite (completed_nil e _ keyBindings 0 Hnc), app_nil_r in Hcalls.
  assert (Hout : forall j, keyBindings !! j = None ->
                   possibleMatches st1 !! j = None /\ possibleMatches st !! j = None).
  { intros j Hj.
    assert (Hst : possibleMatches st !! j = None).
    { destruct (possibleMatches st !! j) as [rem|] eqn:Hentry; [|reflexivity].
      destruct (Hok j rem Hentry) as (kb & _ & Hkb & _). congruence. }
    split; [|exact Hst].
    destruct (forEach_effect e keyBindings 0 st) as (_ & _ & Hfar & _).
    rewrite Hrun in Hfar. cbn [snd] in Hfar. rewrite Hfar; [exact Hst|].
    right. apply lookup_ge_None in Hj. cbn. exact Hj. }
  assert (Hin : forall j kb, keyBindings !! j = Some kb ->
                  possibleMatches st1 !! j
                  = if getModifierState e (key e) then possibleMatches st !! j else None).
  { intros j kb Hj. rewrite (Hprog j kb Hj). unfold Spec.progress.
    pose proof (remaining_nonempty navigator keyBindingMap _ j kb Hok Hj) as Hne.
    destruct (Spec.remaining (fst kb) (possibleMatches st !! j)) as [|p rest] eqn:Hrem;
      [congruence|].
    now rewrite (Hno j kb p rest Hj Hrem). }
  split; [reflexivity|]. split; [exact Hcalls|]. split; intros Hmod; apply map_eq; intros j.
  - destruct (keyBindings !! j) as [kb|] eqn:Hj.
    + now rewrite (Hin j kb Hj), Hmod.
    + destruct (Hout j Hj) as [-> ->]. reflexivity.
  - rewrite lookup_empty. destruct (keyBindings !! j) as [kb|] eqn:Hj.
    + now rewrite (Hin j kb Hj), Hmod.
    + now destruct (Hout j Hj).
Qed.

(** *** The timeout *)

Lemma reachable_dueSoon (st : State) : reachable st -> dueSoon options st.
Proof.
  induction 1 as [|st s Hreach IH]; [intros id due []|].
  destruct (reachable_ok _ _ _ st Hreach) as [_ Htimers].
  destruct s as [[e|]|dt]; cbn [Tinykeys.step]; [| exact IH |].
  - destruct (Spec.suppressed options e) eqn:Hs;
      [now rewrite (handler_suppressed _ _ _ e st Hs)|].
    rewrite (handler_run _ _ _ e st Hs).
    destruct (forEach_effect e keyBindings 0 st) as (_ & _ & _ & Ht & Hp & Hn & Hnow & _).
    destruct (forEach (trackBinding e) 0 keyBindings st) as [[[]|v] st1]; cbn [snd] in *.
    + intros id due Hin.
      assert (Htimers1 : timersOk st1) by (unfold timersOk; now rewrite Ht, Hp, Hn).
      rewrite (rearm_pending options st1 Htimers1) in Hin.
      destruct Hin as [[= <- <-]|[]]. change (now (rearm st1)) with (now st1). lia.
    + intros id due Hin. rewrite Hp in Hin. rewrite Hnow. exact (IH id due Hin).
  - intros id due Hin. unfold elapse in Hin |- *. cbn [pending now] in *.
    apply filter_In in Hin as [Hin Hlate]. cbn in Hlate.
    apply negb_true_iff, N.leb_gt in Hlate. specialize (IH id due Hin). lia.
Qed.

(** X10.  In every state the handler reaches, at most one timeout is
    pending; it is the one the variable [timer] names, and it is due no
    later than [timeout] milliseconds from now. *)
Theorem X10_one_timer_due_within_the_timeout (st : State) :
  reachable st ->
  length (pending st) <= 1
  /\ forall id due, In (id, due) (pending st) ->
       timer st = Some id /\ (now st <= due <= now st + timeoutOf)%N.
Proof.
  intros Hreach. destruct (reachable_ok _ _ _ st Hreach) as [_ [_ Hp]].
  pose proof (reachable_dueSoon st Hreach) as Hdue.
  destruct Hp as [Hp|(id0 & due0 & Ht & _ & Hp)]; rewrite Hp.
  - split; [cbn; lia | intros id due []].
  - split; [cbn; lia|]. intros id due Hin.
    split; [|apply (Hdue id due); now rewrite Hp].
    destruct Hin as [[= <- <-]|[]]. exact Ht.
Qed.

Lemma filter_none_due {A} (f : A -> bool) (l : list A) :
  List.filter f l = [] -> List.filter (fun x => negb (f x)) l = l.
Proof.
  induction l as [|x l IH]; [reflexivity|]. cbn.
  destruct (f x); [discriminate|]. intros H. cbn. now rewrite (IH H).
Qed.

Lemma neverThrows_keyBindings (j : nat) (kb : list KeyBindingPress * Callback)
    (e : KeyboardEvent) :
  neverThrows keyBindingMap -> keyBindings !! j = Some kb -> snd kb e = None.
Proof.
  intros Hnever Hj. destruct (keyBindings_lookup _ _ j kb Hj) as (text & Hmap & _).
  apply (Hnever text). apply list_elem_of_In. now apply (list_elem_of_lookup_2 _ j).
Qed.

(** When no callback throws, a table that is not empty has its timeout. *)
Lemma reachable_armed (st : State) :
  neverThrows keyBindingMap -> reachable st ->
  pending st = [] -> possibleMatches st = ∅.
Proof.
  intros Hnever. induction 1 as [|st s Hreach IH]; [reflexivity|].
  destruct (reachable_ok _ _ _ st Hreach) as [Hok Htimers].
  destruct s as [[e|]|dt]; cbn [Tinykeys.step]; [| exact IH |].
  - destruct (Spec.suppressed options e) eqn:Hs;
      [now rewrite (handler_suppressed _ _ _ e st Hs)|].
    destruct (handler_normal _ _ _ e st Hok Hs)
      as (st1 & _ & -> & _ & _ & Ht & Hp & Hn & _).
    { intros j kb Hj _. now apply (neverThrows_keyBindings j kb e Hnever). }
    cbn [snd]. intros Hnone.
    assert (Htimers1 : timersOk st1) by (unfold timersOk; now rewrite Ht, Hp, Hn).
    rewrite (rearm_pending options st1 Htimers1) in Hnone. discriminate.
  - unfold elapse. cbn [pending possibleMatches].
    destruct (List.filter (fun p => (snd p <=? now st + dt)%N) (pending st)) eqn:Hdue;
      [|reflexivity].
    rewrite (filter_none_due _ _ Hdue). exact IH.
Qed.

(** X11.  When no callback of the map ever throws, progress never
    outlives the timeout: from every state the handler reaches, [timeout]
    milliseconds (or more) without an event leave the table empty. *)
Theorem X11_progress_is_abandoned_after_the_timeout (st : State) (dt : N) :
  neverThrows keyBindingMap ->
  reachable st ->
  (timeoutOf <= dt)%N ->
  possibleMatches (elapse dt st) = ∅.
Proof.
  intros Hnever Hreach Hdt.
  destruct (reachable_ok _ _ _ st Hreach) as [_ [_ Hp]].
  destruct Hp as [Hnone|(id & due & _ & _ & Hp)].
  - unfold elapse. cbn [possibleMatches]. rewrite Hnone. cbn.
    now apply reachable_armed.
  - apply (elapse_due dt st id due Hp).
    pose proof (reachable_dueSoon st Hreach id due) as Hdue.
    rewrite Hp in Hdue. specialize (Hdue (or_introl eq_refl)). lia.
Qed.

(** *** Typing a sequence *)

Lemma run_typing_cons (k : N * KeyboardEvent) (keys : list (N * KeyboardEvent))
    (st : State) :
  run (typing (k :: keys)) st
  = run (typing keys) (step (Dispatch (KeyboardEv (snd k))) (elapse (fst k) st)).
Proof. reflexivity. Qed.

(** The rest of a sequence, typed from a state in which the binding waits
    for it. *)
Lemma typing_rest (i : nat) (kb : list KeyBindingPress * Callback)
    (keys : list (N * KeyboardEvent)) (rem : list KeyBindingPress) (st : State) :
  keyBindings !! i = Some kb ->
  tableOk (possibleMatches st) ->
  timersOk st ->
  Spec.remaining (fst kb) (possibleMatches st !! i) = rem ->
  rem <> [] ->
  Forall2 (fun k p => match_ (snd k) p = true) keys rem ->
  Forall (fun k => suppressed (snd k) = false
                   /\ forall j kb', keyBindings !! j = Some kb' -> snd kb' (snd k) = None)
    keys ->
  (forall k, head keys = Some k ->
     possibleMatches (elapse (fst k) st) !! i = possibleMatches st !! i) ->
  Forall (fun k => (fst k < timeoutOf)%N) (tail keys) ->
  exists new k,
    calls (run (typing keys) st) = calls st ++ new
    /\ last keys = Some k
    /\ callsOf i new = [(i, snd k)]
    /\ possibleMatches (run (typing keys) st) !! i = None.
Proof.
  intros Hkb. revert rem st.
  induction keys as [|k keys IH]; intros rem st Hok Htimers Hrem Hne Hmatch Hproc Hhead Hgaps.
  { inversion Hmatch; subst. congruence. }
  destruct k as [dt e].
  inversion Hmatch as [|? p ? rest Hm Hmatch']; subst. cbn [fst snd] in *.
  inversion Hproc as [|? ? [Hs Hcb] Hproc']; subst. cbn [fst snd] in *.
  rewrite run_typing_cons. cbn [fst snd].
  set (sta := elapse dt st).
  assert (Hoka : tableOk (possibleMatches sta)) by now apply elapse_tableOk.
  assert (Htimersa : timersOk sta) by now apply elapse_timersOk.
  assert (Hrema : Spec.remaining (fst kb) (possibleMatches sta !! i) = p :: rest).
  { pose proof (Hhead (dt, e) eq_refl) as Hh. cbn [fst] in Hh.
    unfold sta. now rewrite Hh. }
  destruct (handler_normal _ _ _ e sta Hoka Hs)
    as (st1 & _ & Hrun & Hprog & Hcalls & Ht & Hp & Hn & Hnow).
  { intros j kb' Hj _. exact (Hcb j kb' Hj). }
  assert (Hstep : step (Dispatch (KeyboardEv e)) sta = rearm st1)
    by (cbn [Tinykeys.step]; now rewrite Hrun).
  assert (Htimers1 : timersOk st1) by (unfold timersOk; now rewrite Ht, Hp, Hn).
  assert (Hentry : possibleMatches (rearm st1) !! i
                   = match rest with [] => None | _ :: _ => Some rest end).
  { change (possibleMatches (rearm st1)) with (possibleMatches st1).
    rewrite (Hprog i kb Hkb). unfold Spec.progress. now rewrite Hrema, Hm. }
  assert (Hnew : callsOf i (Spec.completed e (possibleMatches sta) 0 keyBindings)
                 = match rest with [] => [(i, e)] | _ :: _ => [] end).
  { rewrite (completed_callsOf e _ keyBindings 0 i kb Hkb). cbn [Nat.add].
    unfold Spec.completes. rewrite Hrema. destruct rest; [now rewrite Hm | reflexivity]. }
  rewrite Hstep. destruct rest as [|q rest].
  - inversion Hmatch'; subst. cbn [typing flat_map Tinykeys.run fold_left].
    exists (Spec.completed e (possibleMatches sta) 0 keyBindings), (dt, e).
    change (calls (rearm st1)) with (calls st1). rewrite Hcalls.
    now repeat split.
  - destruct (IH (q :: rest) (rearm st1)) as (new2 & k & Hc2 & Hlast & Hof & Hend).
    + rewrite <- Hstep. now apply handler_tableOk.
    + rewrite <- Hstep. now apply handler_timersOk.
    + now rewrite Hentry.
    + discriminate.
    + exact Hmatch'.
    + exact Hproc'.
    + intros [dt' e'] Hk'. destruct keys as [|k' keys']; [discriminate|].
      cbn in Hk'. injection Hk' as ->. cbn [tail] in Hgaps.
      inversion Hgaps as [|? ? Hdt _]; subst. cbn [fst] in *.
      f_equal. apply (elapse_not_due dt' (rearm st1) _ _ (rearm_pending options st1 Htimers1)).
      change (now (rearm st1)) with (now st1). lia.
    + cbn [tail] in Hgaps. destruct keys as [|k' keys']; [constructor|].
      cbn [tail]. now inversion Hgaps.
    + exists (Spec.completed e (possibleMatches sta) 0 keyBindings ++ new2), k.
      split; [|split; [|split; [|exact Hend]]].
      * rewrite Hc2. change (calls (rearm st1)) with (calls st1).
        rewrite Hcalls. now rewrite app_assoc.
      * rewrite last_cons, Hlast. reflexivity.
      * now rewrite callsOf_app, Hnew, Hof.
Qed.

(** X9.  A binding that is not in progress completes when its sequence
    is typed in time: if the keydowns match its presses one after another,
    each is processed with no callback throwing, and less than [timeout]
    milliseconds pass before each keydown after the first, for a
    [timeout] below 2^31, which the host takes as it is, then the
    binding's callback is called exactly once, with the last keydown, and
    the binding has no entry afterwards. *)
Theorem X9_sequence_typed_in_time_completes (st : State) (i : nat)
    (kb : list KeyBindingPress * Callback) (keys : list (N * KeyboardEvent)) :
  reachable st ->
  keyBindings !! i = Some kb ->
  possibleMatches st !! i = None ->
  Forall2 (fun k p => match_ (snd k) p = true) keys (fst kb) ->
  Forall (fun k => suppressed (snd k) = false
                   /\ forall j kb', keyBindings !! j = Some kb' -> snd kb' (snd k) = None)
    keys ->
  (timeoutOf < 2 ^ 31)%N ->
  Forall (fun k => (fst k < timeoutOf)%N) (tail keys) ->
  exists new k,
    calls (run (typing keys) st) = calls st ++ new
    /\ last keys = Some k
    /\ callsOf i new = [(i, snd k)]
    /\ possibleMatches (run (typing keys) st) !! i = None.
Proof.
  intros Hreach Hkb Hnone Hmatch Hproc _ Hgaps.
  destruct (reachable_ok _ _ _ st Hreach) as [Hok Htimers].
  apply (typing_rest i kb keys (fst kb) st); try assumption.
  - now rewrite Hnone.
  - now apply (keyBindings_sequence_nonempty navigator keyBindingMap i).
  - intros k _. rewrite Hnone.
    destruct (elapse_table (fst k) st) as [-> | ->]; [exact Hnone | apply lookup_empty].
Qed.

End HandlerProperties.

(** The binding [a] of [throwsFirst], whose callback throws. *)
Lemma X7_witness :
  exists e i text callback,
    KeyboardEv (stroke "a") = KeyboardEv e
    /\ throwsFirst !! i = Some (text, callback)
    /\ Spec.completes e (parseKeybinding None text) (possibleMatches initial !! i) = true
    /\ callback e = Some "boom".
Proof.
  exact (X7_handler_throws_only_what_a_callback_throws None throwsFirst defaults
           (KeyboardEv (stroke "a")) initial "boom" (reachable_initial _ _ _) eq_refl).
Defined.

(** The binding [y] beside [y e e t], after [y] and [e] were typed. *)
Lemma X8_witness :
  possibleMatches
    (run None yeet defaults
       [Dispatch (KeyboardEv (stroke "y")); Dispatch (KeyboardEv (stroke "e"))] initial) !! 1
  = None
  /\ possibleMatches
       (run None yeet defaults
          [Dispatch (KeyboardEv (stroke "y")); Dispatch (KeyboardEv (stroke "e"));
           Dispatch (KeyboardEv (stroke "y"))] initial) !! 1
     = None.
Proof.
  destruct (X8_single_press_binding_has_no_state None yeet defaults (stroke "y")
              (run None yeet defaults
                 [Dispatch (KeyboardEv (stroke "y")); Dispatch (KeyboardEv (stroke "e"))]
                 initial)
              1 ([bare "y"], returns) (bare "y"))
    as (Hbefore & Hafter & _).
  - apply reachable_run. constructor.
  - reflexivity.
  - reflexivity.
  - reflexivity.
  - apply yeet_callbacks_return.
  - split; [exact Hbefore | exact Hafter].
Defined.

Lemma yeetOnly_callbacks_return (e : KeyboardEvent) :
  forall j kb, keyBindings None yeetOnly !! j = Some kb -> snd kb e = None.
Proof.
  intros [|j] kb Hj; cbn in Hj; [now injection Hj as <- | discriminate].
Qed.

(** [y e e t] typed with pauses of half a second and more. *)
Lemma X9_witness :
  exists new k,
    calls (run None yeetOnly defaults
             (typing [(0%N, stroke "y"); (500%N, stroke "e"); (999%N, stroke "e");
                      (10%N, stroke "t")]) initial)
    = calls initial ++ new
    /\ last [(0%N, stroke "y"); (500%N, stroke "e"); (999%N, stroke "e"); (10%N, stroke "t")]
       = Some k
    /\ callsOf 0 new = [(0, snd k)]
    /\ possibleMatches
         (run None yeetOnly defaults
            (typing [(0%N, stroke "y"); (500%N, stroke "e"); (999%N, stroke "e");
                     (10%N, stroke "t")]) initial) !! 0
       = None.
Proof.
  apply (X9_sequence_typed_in_time_completes None yeetOnly defaults initial 0
           ([bare "y"; bare "e"; bare "e"; bare "t"], returns)).
  - constructor.
  - reflexivity.
  - reflexivity.
  - repeat constructor.
  - repeat (constructor; [split; [reflexivity | apply yeetOnly_callbacks_return]|]).
    constructor.
  - reflexivity.
  - repeat constructor.
Defined.

(** After the first key of [y e e t]. *)
Lemma X10_witness :
  length (pending (run None yeet defaults [Dispatch (KeyboardEv (stroke "y"))] initial)) <= 1.
Proof.
  apply (X10_one_timer_due_within_the_timeout None yeet defaults).
  apply reachable_run. constructor.
Defined.

Lemma yeet_neverThrows : neverThrows yeet.
Proof.
  intros text callback e [[= <- <-]|[[= <- <-]|[]]]; reflexivity.
Qed.

(** After [y] and [e], a second without a key. *)
Lemma X11_witness :
  possibleMatches
    (elapse 1000
       (run None yeet defaults
          [Dispatch (KeyboardEv (stroke "y")); Dispatch (KeyboardEv (stroke "e"))] initial))
  = ∅.
Proof.
  apply (X11_progress_is_abandoned_after_the_timeout None yeet defaults).
  - exact yeet_neverThrows.
  - apply reachable_run. constructor.
  - unfold timeoutOf, DEFAULT_TIMEOUT. cbn. lia.
Defined.

(** After [y], the key [x] empties the table and the keydown of Shift
    leaves it as it is. *)
Lemma X13_witness :
  possibleMatches
    (snd (handler None yeetOnly defaults (KeyboardEv (stroke "x"))
            (run None yeetOnly defaults [Dispatch (KeyboardEv (stroke "y"))] initial)))
  = ∅.
Proof.
  apply (X13_unmatched_keystroke None yeetOnly defaults (stroke "x")
           (run None yeetOnly defaults [Dispatch (KeyboardEv (stroke "y"))] initial)).
  - apply reachable_run. constructor.
  - reflexivity.
  - intros [|j] kb p rest Hj Hrem; cbn in Hj; [|discriminate].
    injection Hj as <-. cbn in Hrem. injection Hrem as <- _. reflexivity.
  - reflexivity.
Defined.
